(** * modified-gateway: write correlation, diagnostic report and socket teardown

  A shallow embedding of [cassie.js] (the [Cassie] singleton that talks to
  Cassandra) and of the diagnostic and WebSocket parts of
  [src/controllers/things_controller.js], followed by the properties the
  specification states about them.

  Conventions of the embedding.
  - Node runs every handler to completion before the next one starts, so a
    handler is a function from the state before to the state after.
  - JavaScript numbers that the code uses as timestamps, written values and
    indices are integers here ([Z] or [nat]); [Math.round (s / n)] is the
    integer [rnd_div s n].
  - A handler that raises a [TypeError] returns [None].
  - [Cassie.pending] is a plain object used as a dictionary.  Its keys are
    the timestamps the server sends; names inherited from
    [Object.prototype] are not timestamps and are outside the model. *)

From Stdlib Require Import ZArith List Lia Sorted Ascii.
From stdpp Require Import gmap strings list fin_maps.

Local Open Scope Z_scope.

(** ** cassie.js *)

Module Cassie.

(** [interval]: the time an update to Cassandra is in flight. *)
Record Interval := { start : Z; finish : Z }.

(** [obj] pushed on [requests] and [notifications]. *)
Record Entry := { value : Z; time : Z }.

(** Modelled from the spec: [Deferred] (the module [./deferred]) is not
    among the sources; it is the one-shot completion handle of the spec,
    whose [resolve] runs what was attached to its [promise].  A waiter
    stands for such a handle together with the continuation that [write]
    attaches to it; the continuation captures the [interval] opened by
    that call of [write] and the [resolve] of the promise handed to the
    caller, named here by a number. *)
Record Waiter := { caller : nat; opened : Z }.

(** What the driver returns: [result.rows], each row a dictionary from
    column name to value, and [result.info.warnings], absent or an array
    of strings. *)
Record ResultSet := {
  rows : list (gmap string Z);
  warnings : option (list string) }.

Record t := {
  count : nat;
  requests : list Entry;
  notifications : list Entry;
  intervals : list Interval;
  pending : gmap string Waiter;
  finished : list string;
  localDetectionErrors : nat;
  globalDetectionErrors : nat;
  notPersistedErrors : nat;
  delayedRequests : nat;
  dbWrites : list Z }.

(** The state the constructor builds. *)
Definition init : t :=
  {| count := 0; requests := []; notifications := []; intervals := [];
     pending := ∅; finished := [];
     localDetectionErrors := 0; globalDetectionErrors := 0;
     notPersistedErrors := 0; delayedRequests := 0; dbWrites := [] |}.

Definition set_pending (p : gmap string Waiter) (c : t) : t :=
  {| count := count c; requests := requests c;
     notifications := notifications c; intervals := intervals c;
     pending := p; finished := finished c;
     localDetectionErrors := localDetectionErrors c;
     globalDetectionErrors := globalDetectionErrors c;
     notPersistedErrors := notPersistedErrors c;
     delayedRequests := delayedRequests c; dbWrites := dbWrites c |}.

Definition set_finished (f : list string) (c : t) : t :=
  {| count := count c; requests := requests c;
     notifications := notifications c; intervals := intervals c;
     pending := pending c; finished := f;
     localDetectionErrors := localDetectionErrors c;
     globalDetectionErrors := globalDetectionErrors c;
     notPersistedErrors := notPersistedErrors c;
     delayedRequests := delayedRequests c; dbWrites := dbWrites c |}.

Definition set_intervals (l : list Interval) (c : t) : t :=
  {| count := count c; requests := requests c;
     notifications := notifications c; intervals := l;
     pending := pending c; finished := finished c;
     localDetectionErrors := localDetectionErrors c;
     globalDetectionErrors := globalDetectionErrors c;
     notPersistedErrors := notPersistedErrors c;
     delayedRequests := delayedRequests c; dbWrites := dbWrites c |}.

Definition set_errors (l g n : nat) (c : t) : t :=
  {| count := count c; requests := requests c;
     notifications := notifications c; intervals := intervals c;
     pending := pending c; finished := finished c;
     localDetectionErrors := l; globalDetectionErrors := g;
     notPersistedErrors := n;
     delayedRequests := delayedRequests c; dbWrites := dbWrites c |}.

Definition set_delayedRequests (n : nat) (c : t) : t :=
  {| count := count c; requests := requests c;
     notifications := notifications c; intervals := intervals c;
     pending := pending c; finished := finished c;
     localDetectionErrors := localDetectionErrors c;
     globalDetectionErrors := globalDetectionErrors c;
     notPersistedErrors := notPersistedErrors c;
     delayedRequests := n; dbWrites := dbWrites c |}.

Definition set_dbWrites (l : list Z) (c : t) : t :=
  {| count := count c; requests := requests c;
     notifications := notifications c; intervals := intervals c;
     pending := pending c; finished := finished c;
     localDetectionErrors := localDetectionErrors c;
     globalDetectionErrors := globalDetectionErrors c;
     notPersistedErrors := notPersistedErrors c;
     delayedRequests := delayedRequests c; dbWrites := l |}.

(** [client.on('consistencyError', ...)]: one counter per known prefix,
    anything else is dropped. *)
Definition consistencyError (msg : string) (c : t) : t :=
  if String.prefix "Local Detection" msg then
    set_errors (S (localDetectionErrors c)) (globalDetectionErrors c)
               (notPersistedErrors c) c
  else if String.prefix "Global detection concurrent writes" msg then
    set_errors (localDetectionErrors c) (S (globalDetectionErrors c))
               (notPersistedErrors c) c
  else if String.prefix "Global detection update not persisted" msg then
    set_errors (localDetectionErrors c) (globalDetectionErrors c)
               (S (notPersistedErrors c)) c
  else c.

(** [msg.slice(msg.indexOf(' ') + 1)]: what follows the first space, the
    whole message when it has none ([indexOf] is then [-1]). *)
Definition slice_after_space (msg : string) : string :=
  match String.index 0 " " msg with
  | Some i => String.substring (S i) (String.length msg - S i) msg
  | None => msg
  end.

(** The continuation of a resolved wait, and the two other places where
    [write] settles: [interval.finish = Date.now()],
    [this.intervals.push(interval)], [resolve()].  The second component
    lists the callers whose promise was fulfilled. *)
Definition settle (w : Waiter) (now : Z) (c : t) : t * list nat :=
  (set_intervals (intervals c ++ [{| start := opened w; finish := now |}]) c,
   [caller w]).

(** [client.on('finishedProcessing', ...)]. *)
Definition finishedProcessing (msg : string) (now : Z) (c : t)
  : t * list nat :=
  let ts := slice_after_space msg in
  match pending c !! ts with
  | Some d => settle d now (set_pending (delete ts (pending c)) c)
  | None => (set_finished (finished c ++ [ts]) c, [])
  end.

(** [Array.prototype.indexOf] with strict equality; [None] is [-1]. *)
Fixpoint indexOf (x : string) (l : list string) : option nat :=
  match l with
  | [] => None
  | y :: l' => if decide (y = x) then Some 0%nat else S <$> indexOf x l'
  end.

(** [arr.splice(index, 1)]. *)
Definition splice1 (index : nat) (l : list string) : list string :=
  take index l ++ drop (S index) l.

(** [this.pendingExecution(ts).then(k)]: the deferred and its continuation
    go under key [ts]. *)
Definition pendingExecution (ts : string) (w : Waiter) (c : t) : t :=
  set_pending (<[ts := w]> (pending c)) c.

(** The key a property access coerces [warnings[1]] to. *)
Definition key_of (ts : option string) : string :=
  match ts with Some s => s | None => "undefined" end.

(** The callback [write] passes to [this.execute(query).then]; [result] is
    [None] when [execute] returned [undefined].  [w] holds what the closure
    captured. *)
Definition write_then (w : Waiter) (result : option ResultSet) (now : Z)
    (c : t) : option (t * list nat) :=
  match result with
  | None => None
  | Some r =>
    match warnings r with
    | Some ws =>
      if decide (ws !! 0%nat = Some "DELAY"%string) then
        let c1 := set_delayedRequests (S (delayedRequests c)) c in
        let ts := ws !! 1%nat in
        match ts ≫= (fun s => indexOf s (finished c1)) with
        | Some index =>
          Some (settle w now (set_finished (splice1 index (finished c1)) c1))
        | None => Some (pendingExecution (key_of ts) w c1, [])
        end
      else Some (settle w now c)
    | None => Some (settle w now c)
    end
  end.

(** The synchronous part of [write]: [this.dbWrites.push(value)]. *)
Definition write_begin (v : Z) (c : t) : t :=
  set_dbWrites (dbWrites c ++ [v]) c.

(** A call of [client.execute]: it returns a result or throws. *)
Inductive driver_reply := Returned (r : ResultSet) | Thrown.

(** [execute]: the result of the driver, or [undefined] after logging. *)
Definition execute (reply : driver_reply) : option ResultSet * list string :=
  match reply with
  | Returned r => (Some r, [])
  | Thrown => (None, ["Error with Cassandra query: "%string])
  end.

(** How an [async] call ends. *)
Inductive settled (A : Type) :=
| Fulfilled (a : A)
| Rejected.
Arguments Fulfilled {A} a.
Arguments Rejected {A}.

(** [read]: [result.rows[0][propertyName]] of what [execute] returned.
    Reading [rows] of [undefined], or a column of a missing first row,
    raises a [TypeError], which rejects the promise; a missing column
    reads as [undefined], here [None]. *)
Definition read (propertyName : string) (reply : driver_reply)
  : settled (option Z) :=
  match fst (execute reply) with
  | Some result =>
    match rows result !! 0%nat with
    | Some row => Fulfilled (row !! propertyName)
    | None => Rejected
    end
  | None => Rejected
  end.

End Cassie.

(** ** things_controller.js: the diagnostic requests

  A [PUT] on a property with [sequenceNumber] [-1] builds the report from
  the streams recorded in [cassie]; with [-2] it resets them. *)

Module Report.
Import Cassie.

(** [Math.round(s / n)] for an integer [s] and a positive count [n]:
    the nearest integer, a half going up. *)
Definition rnd_div (s : Z) (n : nat) : Z :=
  (2 * s + Z.of_nat n) / (2 * Z.of_nat n).

(** [timeBetween.reduce((a, b) => a + b)] on a non-empty array. *)
Definition reduce_add (l : list Z) : Z :=
  match l with
  | [] => 0
  | a :: l' => foldl Z.add a l'
  end.

(** [if (timeBetween.length > 0) Math.round(findAvg(timeBetween)) else 0]. *)
Definition avgOf (timeBetween : list Z) : Z :=
  if (0 <? length timeBetween)%nat
  then rnd_div (reduce_add timeBetween) (length timeBetween)
  else 0.

(** The loop over [cassie.notifications] from [i = 0] that pushes
    [t[i] - t[i-1]] when [i > 0]. *)
Definition timeBetween_from0 (t : list Z) : list Z :=
  flat_map (fun i : nat =>
              if (0 <? i)%nat then
                match t !! i, t !! (i - 1)%nat with
                | Some a, Some b => [a - b]
                | _, _ => []
                end
              else [])
           (seq 0 (length t)).

(** The loop over [cassie.intervals] from [i = 1]. *)
Definition timeBetween_from1 (t : list Z) : list Z :=
  flat_map (fun i : nat =>
              match t !! i, t !! (i - 1)%nat with
              | Some a, Some b => [a - b]
              | _, _ => []
              end)
           (seq 1 (length t - 1)).

Definition avgUpdate (c : Cassie.t) : Z :=
  avgOf (timeBetween_from0 (map time (notifications c))).

Definition avgWrite (c : Cassie.t) : Z :=
  avgOf (timeBetween_from1 (map start (intervals c))).

(** [Array.prototype.sort] with the comparator [key a - key b]; the sort
    of Node is stable, as is this insertion sort. *)
Fixpoint insert_by {A} (key : A -> Z) (x : A) (l : list A) : list A :=
  match l with
  | [] => [x]
  | y :: l' => if key x <=? key y then x :: l else y :: insert_by key x l'
  end.

Definition sort_by {A} (key : A -> Z) (l : list A) : list A :=
  foldr (insert_by key) [] l.

(** The integers strictly between [prev] and [current], ascending. *)
Definition between (prev current : Z) : list Z :=
  map (fun k : nat => prev + 1 + Z.of_nat k)
      (seq 0 (Z.to_nat (current - prev - 1))).

(** [lostUpdates]: [0] unless the smallest write is [0], then every
    integer in a gap between two neighbours of the sorted writes. *)
Definition lostUpdates (dbWrites : list Z) : list Z :=
  let sortedWrites := sort_by id dbWrites in
  (if decide (sortedWrites !! 0%nat = Some 0) then [] else [0]) ++
  flat_map (fun i : nat =>
              match sortedWrites !! i, sortedWrites !! (i - 1)%nat with
              | Some current, Some prev =>
                if 1 <? current - prev then between prev current else []
              | _, _ => []
              end)
           (seq 1 (length sortedWrites - 1)).

(** The five ways a line of the report ends. *)
Inductive remark :=
| FLAGGED_AS_LOST
| WRONG_VALUE_FROM_DATABASE
| REORDERED_BY_GATEWAY
| plain
| lost.

(** One line of [str]: request number, request value, notification value
    ([None] prints as "none" or "lost"), processing time, remark. *)
Record Line := {
  number : nat;
  sent : Z;
  seen : option Z;
  ms : option Z;
  note : remark }.

(** The variables the classification loop updates. *)
Record Scan := {
  reqPointer : nat;
  notifPointer : nat;
  str : list Line;
  wrong : nat;
  dbReadWrongValue : nat;
  correctReq : nat;
  incorrectReq : nat;
  processingTime : list Z }.

Definition scan0 : Scan :=
  {| reqPointer := 0; notifPointer := 0; str := []; wrong := 0;
     dbReadWrongValue := 0; correctReq := 0; incorrectReq := 0;
     processingTime := [] |}.

(** One iteration of [while (reqPointer < length)]; [None] when the
    iteration raises a [TypeError]. *)
Definition body (c : Cassie.t) (lostUpdates : list Z) (s : Scan)
  : option Scan :=
  match requests c !! reqPointer s with
  | None => None
  | Some request =>
    let correct := bool_decide (Z.of_nat (reqPointer s) = value request) in
    let correctReq' := if correct then S (correctReq s) else correctReq s in
    let incorrectReq' :=
      if correct then incorrectReq s else S (incorrectReq s) in
    let notification := notifications c !! notifPointer s in
    if bool_decide (value request ∈ lostUpdates) then
      match notification with
      | None => None
      | Some n =>
        Some {| reqPointer := S (reqPointer s);
                notifPointer := notifPointer s;
                str := str s ++
                  [{| number := reqPointer s; sent := value request;
                      seen := None; ms := Some (time n - time request);
                      note := FLAGGED_AS_LOST |}];
                wrong := wrong s;
                dbReadWrongValue := dbReadWrongValue s;
                correctReq := correctReq'; incorrectReq := incorrectReq';
                processingTime := processingTime s |}
      end
    else
      match notification with
      | Some n =>
        let processingTime' :=
          processingTime s ++ [time n - time request] in
        if bool_decide (value request ≠ value n) then
          if bool_decide (dbWrites c !! notifPointer s = Some (value request))
          then
            Some {| reqPointer := S (reqPointer s);
                    notifPointer := S (notifPointer s);
                    str := str s ++
                      [{| number := reqPointer s; sent := value request;
                          seen := Some (value n);
                          ms := Some (time n - time request);
                          note := WRONG_VALUE_FROM_DATABASE |}];
                    wrong := S (wrong s);
                    dbReadWrongValue := S (dbReadWrongValue s);
                    correctReq := correctReq'; incorrectReq := incorrectReq';
                    processingTime := processingTime' |}
          else
            Some {| reqPointer := S (reqPointer s);
                    notifPointer := S (notifPointer s);
                    str := str s ++
                      [{| number := reqPointer s; sent := value request;
                          seen := Some (value n);
                          ms := Some (time n - time request);
                          note := REORDERED_BY_GATEWAY |}];
                    wrong := S (wrong s);
                    dbReadWrongValue := dbReadWrongValue s;
                    correctReq := correctReq'; incorrectReq := incorrectReq';
                    processingTime := processingTime' |}
        else
          Some {| reqPointer := S (reqPointer s);
                  notifPointer := S (notifPointer s);
                  str := str s ++
                    [{| number := reqPointer s; sent := value request;
                        seen := Some (value n);
                        ms := Some (time n - time request);
                        note := plain |}];
                  wrong := wrong s;
                  dbReadWrongValue := dbReadWrongValue s;
                  correctReq := correctReq'; incorrectReq := incorrectReq';
                  processingTime := processingTime' |}
      | None =>
        Some {| reqPointer := S (reqPointer s);
                notifPointer := S (notifPointer s);
                str := str s ++
                  [{| number := reqPointer s; sent := value request;
                      seen := None; ms := None; note := lost |}];
                wrong := wrong s;
                dbReadWrongValue := dbReadWrongValue s;
                correctReq := correctReq'; incorrectReq := incorrectReq';
                processingTime := processingTime s |}
      end
  end.

(** [while (reqPointer < length) body]; every iteration that does not
    raise moves [reqPointer] forward, so [length] rounds are enough. *)
Fixpoint while (fuel : nat) (c : Cassie.t) (lostUpdates : list Z)
    (s : Scan) : option Scan :=
  if (reqPointer s <? length (requests c))%nat then
    match fuel with
    | O => Some s
    | S fuel' =>
      match body c lostUpdates s with
      | Some s' => while fuel' c lostUpdates s'
      | None => None
      end
    end
  else Some s.

Definition classify (c : Cassie.t) : option Scan :=
  while (length (requests c)) c (lostUpdates (dbWrites c)) scan0.

Definition avgProcessingTime (c : Cassie.t) : option Z :=
  (fun s => avgOf (processingTime s)) <$> classify c.

(** The nested loops over the intervals sorted by [start]: for each [i],
    the first [j < i] with a later [finish] adds one and leaves the inner
    loop. *)
Definition overlapping (ivs : list Interval) : nat :=
  let sorted := sort_by start ivs in
  foldl (fun (acc : nat) (i : nat) =>
           if existsb (fun j : nat =>
                         match sorted !! j, sorted !! i with
                         | Some a, Some b => finish b <? finish a
                         | _, _ => false
                         end)
                      (seq 0 i)
           then S acc else acc)
        0%nat (seq 0 (length sorted)).

(** [Math.round(cassAvg / cassie.intervals.length)] of the summed round
    trips; [None] is the [NaN] that no interval at all gives. *)
Definition cassAvg (ivs : list Interval) : option Z :=
  if (0 <? length ivs)%nat
  then Some (rnd_div (foldl (fun acc iv => acc + (finish iv - start iv)) 0 ivs)
                     (length ivs))
  else None.

(** The numbers of the summary; the text around them is left out. *)
Record Summary := {
  s_correctReq : nat;
  s_incorrectReq : nat;
  s_count : nat;
  s_wrong : nat;
  s_dbReadWrongValue : nat;
  s_avgWrite : Z;
  s_avgUpdate : Z;
  s_avgProcessingTime : Z;
  s_overlapping : nat;
  s_cassAvg : option Z;
  s_localDetectionErrors : nat;
  s_globalDetectionErrors : nat;
  s_notPersistedErrors : nat;
  s_delayedRequests : nat;
  s_lines : list Line }.

(** The [seq === -1] branch: the summary sent, and [cassie] after it (the
    intervals have been sorted in place).  [None] when the classification
    loop raised. *)
Definition report (c : Cassie.t) : option (Summary * Cassie.t) :=
  match classify c with
  | None => None
  | Some s =>
    Some ({| s_correctReq := correctReq s;
             s_incorrectReq := incorrectReq s;
             s_count := count c;
             s_wrong := wrong s;
             s_dbReadWrongValue := dbReadWrongValue s;
             s_avgWrite := avgWrite c;
             s_avgUpdate := avgUpdate c;
             s_avgProcessingTime := avgOf (processingTime s);
             s_overlapping := overlapping (intervals c);
             s_cassAvg := cassAvg (intervals c);
             s_localDetectionErrors := localDetectionErrors c;
             s_globalDetectionErrors := globalDetectionErrors c;
             s_notPersistedErrors := notPersistedErrors c;
             s_delayedRequests := delayedRequests c;
             s_lines := str s |},
          set_intervals (sort_by start (intervals c)) c)
  end.

(** The [seq === -2] branch. *)
Definition reset (c : Cassie.t) : Cassie.t :=
  {| count := 0; requests := []; notifications := []; intervals := [];
     pending := pending c; finished := finished c;
     localDetectionErrors := 0; globalDetectionErrors := 0;
     notPersistedErrors := 0; delayedRequests := 0; dbWrites := [] |}.

(** The other places where the controller writes to [cassie]: the request
    handler pushes the request; [onPropertyChanged] counts the
    notification, awaits the value of the property, and then pushes the
    notification. *)
Definition push_request (e : Entry) (c : Cassie.t) : Cassie.t :=
  {| count := count c; requests := requests c ++ [e];
     notifications := notifications c; intervals := intervals c;
     pending := pending c; finished := finished c;
     localDetectionErrors := localDetectionErrors c;
     globalDetectionErrors := globalDetectionErrors c;
     notPersistedErrors := notPersistedErrors c;
     delayedRequests := delayedRequests c; dbWrites := dbWrites c |}.

Definition count_notification (c : Cassie.t) : Cassie.t :=
  {| count := S (count c); requests := requests c;
     notifications := notifications c; intervals := intervals c;
     pending := pending c; finished := finished c;
     localDetectionErrors := localDetectionErrors c;
     globalDetectionErrors := globalDetectionErrors c;
     notPersistedErrors := notPersistedErrors c;
     delayedRequests := delayedRequests c; dbWrites := dbWrites c |}.

Definition push_notification (e : Entry) (c : Cassie.t) : Cassie.t :=
  {| count := count c; requests := requests c;
     notifications := notifications c ++ [e]; intervals := intervals c;
     pending := pending c; finished := finished c;
     localDetectionErrors := localDetectionErrors c;
     globalDetectionErrors := globalDetectionErrors c;
     notPersistedErrors := notPersistedErrors c;
     delayedRequests := delayedRequests c; dbWrites := dbWrites c |}.

End Report.

(** ** The handlers that touch [cassie], as a trace *)

Module Trace.
Import Cassie.

Inductive event :=
| write (v : Z)
| ack (w : Waiter) (reply : driver_reply) (now : Z)
| finishedProcessing (msg : string) (now : Z)
| consistencyError (msg : string)
| request (e : Entry)
| propertyChanged
| notification (e : Entry)
| report
| reset.

(** One handler run to completion: the state after it and the callers of
    [write] it fulfilled.  A handler that raises leaves [cassie] as it
    found it: both raising places come before any assignment that
    survives ([result.info] in the callback of [write]; the loop of the
    report, which only updates locals). *)
Definition handle (e : event) (c : Cassie.t) : Cassie.t * list nat :=
  match e with
  | write v => (write_begin v c, [])
  | ack w reply now =>
    match write_then w (fst (execute reply)) now c with
    | Some r => r
    | None => (c, [])
    end
  | finishedProcessing msg now => Cassie.finishedProcessing msg now c
  | consistencyError msg => (Cassie.consistencyError msg c, [])
  | request e => (Report.push_request e c, [])
  | propertyChanged => (Report.count_notification c, [])
  | notification e => (Report.push_notification e c, [])
  | report =>
    match Report.report c with
    | Some (_, c') => (c', [])
    | None => (c, [])
    end
  | reset => (Report.reset c, [])
  end.

Fixpoint run (evs : list event) (c : Cassie.t) : Cassie.t * list nat :=
  match evs with
  | [] => (c, [])
  | e :: evs' =>
    let '(c1, out1) := handle e c in
    let '(c2, out2) := run evs' c1 in
    (c2, out1 ++ out2)
  end.

(** The callers whose acknowledgment a trace delivers. *)
Fixpoint acked (evs : list event) : list nat :=
  match evs with
  | [] => []
  | ack w _ _ :: evs' => caller w :: acked evs'
  | _ :: evs' => acked evs'
  end.

(** The acknowledgment is a delayed one for the key [ts]. *)
Definition delayed_for (ts : string) (e : event) : bool :=
  match e with
  | ack _ (Returned r) _ =>
    match warnings r with
    | Some ws =>
      bool_decide (ws !! 0%nat = Some "DELAY"%string) &&
      bool_decide (key_of (ws !! 1%nat) = ts)
    | None => false
    end
  | _ => false
  end.

(** The event is a completion signal for the token [ts]. *)
Definition signal_for (ts : string) (e : event) : bool :=
  match e with
  | finishedProcessing msg _ => bool_decide (slice_after_space msg = ts)
  | _ => false
  end.

(** A delayed acknowledgment names its token: [warnings[1]] is there. *)
Definition names_token (e : event) : bool :=
  match e with
  | ack _ (Returned r) _ =>
    match warnings r with
    | Some ws =>
      if decide (ws !! 0%nat = Some "DELAY"%string)
      then bool_decide (is_Some (ws !! 1%nat)) else true
    | None => true
    end
  | _ => true
  end.

End Trace.

(** ** things_controller.js: [websocketHandler]

  One call of [websocketHandler] and what it registers.  Only the
  registrations of this call are tracked: [removeListener] takes away an
  instance of the function it is given, so the listeners of other
  connections are never touched by this one. *)

Module Hub.

(** The functions one call of [websocketHandler] creates.  [addThing]
    creates three more at every call; [k] numbers the calls. *)
Inductive listener :=
| onThingAdded
| onPropertyChanged
| onActionStatus
| onEvent
| onConnected (k : nat)
| onRemoved (k : nat)
| onModified (k : nat).

#[export] Instance listener_eq_dec : EqDecision listener.
Proof. solve_decision. Defined.

(** Node's [EventEmitter] for one event name: [on] appends. *)
Definition on (f : listener) (l : list listener) : list listener :=
  l ++ [f].

Fixpoint remove_first (f : listener) (l : list listener) : list listener :=
  match l with
  | [] => []
  | g :: l' => if decide (g = f) then l' else g :: remove_first f l'
  end.

(** [removeListener] takes away the most recently added instance of [f],
    and does nothing when there is none. *)
Definition removeListener (f : listener) (l : list listener)
  : list listener :=
  reverse (remove_first f (reverse l)).

(** Modelled from the spec: the per-device subscribe and unsubscribe calls
    ([addEventSubscription], [removeEventSubscription] and the like for
    connected, removed and modified) belong to [models/thing.js], which
    is not among the sources; the spec names them "event
    subscribe/unsubscribe per device".  Each kind is taken to be an
    [EventEmitter] event of the [Thing] object, like the emitters
    [Things], [AddonManager] and [Actions] that [websocketHandler]
    addresses with [on] and [removeListener]. *)
Record Thing := {
  event_subscriptions : list listener;
  connected_subscriptions : list listener;
  removed_subscriptions : list listener;
  modified_subscriptions : list listener }.

Definition no_subscriptions : Thing :=
  {| event_subscriptions := []; connected_subscriptions := [];
     removed_subscriptions := []; modified_subscriptions := [] |}.

(** The places a listener can be registered at. *)
Inductive place :=
| Things_THING_ADDED
| AddonManager_PROPERTY_CHANGED
| Actions_ACTION_STATUS
| thing_event (id : string)
| thing_connected (id : string)
| thing_removed (id : string)
| thing_modified (id : string).

#[export] Instance place_eq_dec : EqDecision place.
Proof. solve_decision. Defined.

(** What a teardown step really took away. *)
Inductive removal :=
| unregistered (p : place) (f : listener)
| cleared_heartbeat.

#[export] Instance removal_eq_dec : EqDecision removal.
Proof. solve_decision. Defined.

(** The emitters and the timer, and the variables of the handler's
    closure. *)
Record Session := {
  thing_added : list listener;
  property_changed : list listener;
  action_status : list listener;
  things : gmap string Thing;
  heartbeat : bool;
  thingId : option string;
  subscribedEventNames : gset string;
  thingCleanups : gmap string nat;
  calls : nat }.

Definition the_thing (id : string) (s : Session) : Thing :=
  default no_subscriptions (things s !! id).

(** The synchronous part of [websocketHandler] on an open socket. *)
Definition open (thingId : option string) : Session :=
  {| thing_added :=
       match thingId with Some _ => [] | None => on onThingAdded [] end;
     property_changed := on onPropertyChanged [];
     action_status := on onActionStatus [];
     things := ∅;
     heartbeat := true;
     thingId := thingId;
     subscribedEventNames := ∅;
     thingCleanups := ∅;
     calls := 0 |}.

(** [addThing(thing)]: four subscriptions on the thing, and the closure
    that undoes them stored under [thing.id]. *)
Definition addThing (id : string) (s : Session) : Session :=
  let k := calls s in
  let t := the_thing id s in
  {| thing_added := thing_added s;
     property_changed := property_changed s;
     action_status := action_status s;
     things :=
       <[id := {| event_subscriptions := on onEvent (event_subscriptions t);
                  connected_subscriptions :=
                    on (onConnected k) (connected_subscriptions t);
                  removed_subscriptions :=
                    on (onRemoved k) (removed_subscriptions t);
                  modified_subscriptions :=
                    on (onModified k) (modified_subscriptions t) |}]>
         (things s);
     heartbeat := heartbeat s;
     thingId := thingId s;
     subscribedEventNames := subscribedEventNames s;
     thingCleanups := <[id := k]> (thingCleanups s);
     calls := S k |}.

(** The removals a [removeListener f] performs on [l] at place [p]. *)
Definition taken (p : place) (f : listener) (l : list listener)
  : list removal :=
  if bool_decide (f ∈ l) then [unregistered p f] else [].

(** [thingCleanup] of the [k]-th call of [addThing], made for thing
    [id]. *)
Definition thingCleanup (id : string) (k : nat)
    (ts : gmap string Thing) : gmap string Thing * list removal :=
  let t := default no_subscriptions (ts !! id) in
  (<[id := {| event_subscriptions :=
                removeListener onEvent (event_subscriptions t);
              connected_subscriptions :=
                removeListener (onConnected k) (connected_subscriptions t);
              removed_subscriptions :=
                removeListener (onRemoved k) (removed_subscriptions t);
              modified_subscriptions :=
                removeListener (onModified k) (modified_subscriptions t) |}]>
     ts,
   taken (thing_event id) onEvent (event_subscriptions t) ++
   taken (thing_connected id) (onConnected k) (connected_subscriptions t) ++
   taken (thing_removed id) (onRemoved k) (removed_subscriptions t) ++
   taken (thing_modified id) (onModified k) (modified_subscriptions t)).

(** [for (const id in thingCleanups) thingCleanups[id]()] over the
    entries in the order given. *)
Fixpoint run_cleanups (l : list (string * nat)) (ts : gmap string Thing)
  : gmap string Thing * list removal :=
  match l with
  | [] => (ts, [])
  | (id, k) :: l' =>
    let '(ts1, log1) := thingCleanup id k ts in
    let '(ts2, log2) := run_cleanups l' ts1 in
    (ts2, log1 ++ log2)
  end.

(** [cleanup]: the session after it and what it took away. *)
Definition cleanup (s : Session) : Session * list removal :=
  let '(ts, log) := run_cleanups (map_to_list (thingCleanups s)) (things s) in
  ({| thing_added := removeListener onThingAdded (thing_added s);
      property_changed :=
        removeListener onPropertyChanged (property_changed s);
      action_status := removeListener onActionStatus (action_status s);
      things := ts;
      heartbeat := false;
      thingId := thingId s;
      subscribedEventNames := subscribedEventNames s;
      thingCleanups := ∅;
      calls := calls s |},
   taken Things_THING_ADDED onThingAdded (thing_added s) ++
   taken AddonManager_PROPERTY_CHANGED onPropertyChanged
         (property_changed s) ++
   taken Actions_ACTION_STATUS onActionStatus (action_status s) ++
   log ++
   (if heartbeat s then [cleared_heartbeat] else [])).

(** The first half of an [onRemoved] closure made for thing [id]: run
    and forget the cleanup stored under that id, if there is one. *)
Definition removed (id : string) (s : Session) : Session :=
  match thingCleanups s !! id with
  | Some k =>
    {| thing_added := thing_added s;
       property_changed := property_changed s;
       action_status := action_status s;
       things := fst (thingCleanup id k (things s));
       heartbeat := heartbeat s;
       thingId := thingId s;
       subscribedEventNames := subscribedEventNames s;
       thingCleanups := delete id (thingCleanups s);
       calls := calls s |}
  | None => s
  end.

(** An [ADD_EVENT_SUBSCRIPTION] message with these event names. *)
Definition subscribe (names : list string) (s : Session) : Session :=
  {| thing_added := thing_added s;
     property_changed := property_changed s;
     action_status := action_status s;
     things := things s;
     heartbeat := heartbeat s;
     thingId := thingId s;
     subscribedEventNames := subscribedEventNames s ∪ list_to_set names;
     thingCleanups := thingCleanups s;
     calls := calls s |}.

(** What can happen to a session once it is open. *)
Inductive event :=
| thing (id : string)
| thing_gone (id : string)
| message (names : list string)
| teardown.

Definition handle (e : event) (s : Session) : Session :=
  match e with
  | thing id => addThing id s
  | thing_gone id => removed id s
  | message names => subscribe names s
  | teardown => fst (cleanup s)
  end.

Definition run (evs : list event) (s : Session) : Session :=
  foldl (fun s e => handle e s) s evs.

End Hub.

(** ** cassie.js: the statements sent to Cassandra *)

Module Queries.

(** The double quote, as a string. *)
Definition quote : string := String (Ascii.ascii_of_nat 34) EmptyString.

(** [inQuotes]. *)
Definition inQuotes (str : string) : string := quote +:+ str +:+ quote.

(** [formatId]: [deviceId.replace(/-/g, '_')]. *)
Fixpoint formatId (deviceId : string) : string :=
  match deviceId with
  | EmptyString => EmptyString
  | String c rest =>
    String (if Ascii.eqb c "-" then "_"%char else c) (formatId rest)
  end.

(** [str.slice(0, str.length - k)] for [k] no larger than the length. *)
Definition drop_last (k : nat) (str : string) : string :=
  String.substring 0 (String.length str - k) str.

(** [typeMap.get]. *)
Definition typeMap (type : string) : option string :=
  if String.eqb type "boolean" then Some "boolean"%string
  else if String.eqb type "number" then Some "double"%string
  else if String.eqb type "integer" then Some "int"%string
  else None.

(** One entry of the [properties] argument of [initDevice], in the order
    [for ... in] visits them: the property name, [propertyDict.type], and
    [propertyDict.value] as string concatenation prints it. *)
Record Property := { name : string; type : string; printed : string }.

(** [columnTypes[property]] inside a concatenation: an unknown type reads
    [undefined]. *)
Definition columnType (p : Property) : string :=
  default "undefined"%string (typeMap (type p)).

Section Statements.

(** [String.prototype.toLowerCase], which the statements only pass
    through. *)
Variable toLowerCase : string → string.

(** The [CREATE TABLE] statement of [initDevice]; [deviceId] is already
    formatted. *)
Definition createTable (deviceId : string) (properties : list Property)
  : string :=
  let query :=
    foldl (λ query p,
             query +:+ " " +:+ inQuotes (toLowerCase (name p)) +:+ " " +:+
             columnType p +:+ ",")
          ("CREATE TABLE " +:+ inQuotes deviceId +:+
           " ( id text PRIMARY KEY,")
          properties in
  drop_last 1 query +:+ " );".

(** The [INSERT] statement of [initDevice]. *)
Definition insertState (deviceId : string) (properties : list Property)
  : string :=
  let props :=
    foldl (λ props p, props +:+ inQuotes (toLowerCase (name p)) +:+ ", ")
          "id, "%string properties in
  let values :=
    foldl (λ values p, values +:+ printed p +:+ ", ")
          "'state', "%string properties in
  "INSERT INTO " +:+ inQuotes deviceId +:+ "" +:+
  ("(" +:+ drop_last 2 props +:+ ")") +:+ " VALUES " +:+
  ("(" +:+ drop_last 2 values +:+ ")") +:+ ";".

(** What [client.metadata.getTable] does. *)
Inductive table_lookup := found | not_found | lookup_thrown.

(** [tableExists]: the lookup result [!= null]; it stays [undefined] when
    the lookup throws. *)
Definition tableExists (l : table_lookup) : bool :=
  match l with found => true | _ => false end.

(** [initDevice]: the statements handed to [execute], in order. *)
Definition initDevice (deviceId : string) (properties : list Property)
    (l : table_lookup) : list string :=
  let deviceId := formatId (toLowerCase deviceId) in
  (if tableExists l then [] else [createTable deviceId properties]) ++
  [insertState deviceId properties].

(** The [UPDATE] statement of [write]; [value] as concatenation prints
    it. *)
Definition updateQuery (deviceId propertyName value : string) : string :=
  "UPDATE " +:+ inQuotes (formatId (toLowerCase deviceId)) +:+ " SET " +:+
  inQuotes (toLowerCase propertyName) +:+ "=" +:+ value +:+
  " WHERE id='state';".

(** The [SELECT] statement of [read]. *)
Definition selectQuery (deviceId propertyName : string) : string :=
  "SELECT " +:+ inQuotes (toLowerCase propertyName) +:+ " FROM " +:+
  inQuotes (formatId (toLowerCase deviceId)) +:+ " WHERE id='state';".

End Statements.

End Queries.

(** ** things_controller.js: what a socket forwards *)

Module Fanout.
Import Hub.

(** [subscribedEventNames] is a plain object: reading one of the names it
    inherits from [Object.prototype] gives a function or an object, which
    counts as true, whether or not the name was ever subscribed. *)
Definition inherited (name : string) : bool :=
  bool_decide
    (name ∈ ["constructor"; "__defineGetter__"; "__defineSetter__";
             "hasOwnProperty"; "__lookupGetter__"; "__lookupSetter__";
             "isPrototypeOf"; "propertyIsEnumerable"; "toString";
             "valueOf"; "__proto__"; "toLocaleString"]%string).

(** The test [typeof thingId !== 'undefined' && id !== thingId] does not
    send the handler away. *)
Definition in_scope (s : Session) (id : string) : bool :=
  match thingId s with
  | Some t => bool_decide (id = t)
  | None => true
  end.

(** [onEvent] reaches [sendMessage] for an event of thing [id] named
    [name]. *)
Definition onEvent_sends (s : Session) (id name : string) : bool :=
  in_scope s id &&
  (bool_decide (name ∈ subscribedEventNames s) || inherited name).

(** [onPropertyChanged] goes on to count, read and send for a property of
    device [id]. *)
Definition onPropertyChanged_sends (s : Session) (id : string) : bool :=
  in_scope s id.

(** [onActionStatus] reaches [sendMessage]; [thing] is [action.thingId]
    when the action has one of its own. *)
Definition onActionStatus_sends (s : Session) (thing : option string)
  : bool :=
  match thing with
  | Some id => in_scope s id
  | None => true
  end.

End Fanout.

(** * Notions used in the statements *)

Section CorrelatorNotions.
Import Cassie.

(** The callers parked in the pending map. *)
Definition parked (x : nat) (c : Cassie.t) : Prop :=
  ∃ k w, pending c !! k = Some w ∧ caller w = x.

(** What links a state to the acknowledgments delivered so far ([seen])
    and to the callers fulfilled so far ([out]). *)
Record linked (seen : list nat) (c : Cassie.t) (out : list nat) : Prop := {
  out_nodup : NoDup out;
  out_seen : ∀ x, x ∈ out → x ∈ seen;
  parked_seen : ∀ x, parked x c → x ∈ seen;
  parked_waiting : ∀ x, parked x c → x ∉ out;
  parked_once : ∀ k1 k2 w1 w2,
      pending c !! k1 = Some w1 → pending c !! k2 = Some w2 →
      caller w1 = caller w2 → k1 = k2 }.

(** A delayed acknowledgment: ["DELAY"], the token, and whatever else
    the driver appends. *)
Definition delayed (ts : string) (more : list string)
    (rs : list (gmap string Z)) : driver_reply :=
  Returned {| rows := rs; warnings := Some ("DELAY"%string :: ts :: more) |}.

(** A write parked on token 7, its signal, and the same signal again. *)
Definition late_signal_twice : list Trace.event :=
  [Trace.ack {| caller := 1; opened := 5 |} (delayed "7" [] []) 6;
   Trace.finishedProcessing "finished 7" 9;
   Trace.finishedProcessing "finished 7" 12].


(** The invariant in the words of the specification: no token in both
    places, none twice in [finished]. *)
Definition one_place_once (c : Cassie.t) : Prop :=
  NoDup (finished c) ∧
  ∀ ts, ¬ (is_Some (pending c !! ts) ∧ ts ∈ finished c).

End CorrelatorNotions.

Section ResetNotions.
Import Cassie.

(** Two states with the same correlations. *)
Definition same_correlations (c c' : Cassie.t) : Prop :=
  pending c = pending c' ∧ finished c = finished c'.

End ResetNotions.

Section AveragesNotions.
Import Cassie Report.

(** The differences of neighbours, by recursion on the list. *)
Fixpoint deltas (t : list Z) : list Z :=
  match t with
  | a :: (b :: _) as t' => (b - a) :: deltas t'
  | _ => []
  end.

(** [r] is the nearest integer to the mean of [l], a half going up. *)
Definition nearest_to_mean (l : list Z) (r : Z) : Prop :=
  2 * Z.of_nat (length l) * r - Z.of_nat (length l) ≤ 2 * foldr Z.add 0 l
  ∧ 2 * foldr Z.add 0 l < 2 * Z.of_nat (length l) * r + Z.of_nat (length l).

(** [d] is the time from some recorded request to some recorded
    notification. *)
Definition latency_of (c : Cassie.t) (d : Z) : Prop :=
  ∃ r n, r ∈ requests c ∧ n ∈ notifications c ∧ d = time n - time r.

(** The latencies printed on the lines of a report that are not flagged
    lost. *)
Definition printed_latencies (lines : list Line) : list Z :=
  omap (λ line, match note line with
                | FLAGGED_AS_LOST => None
                | _ => ms line
                end) lines.

(** What one step of a loop over neighbours pushes, and the whole loop by
recursion on the list. *)
Definition at_neighbours {B} (h : Z → Z → list B) (t : list Z) (i : nat)
  : list B :=
  match t !! i, t !! (i - 1)%nat with
  | Some a, Some b => h a b
  | _, _ => []
  end.

Fixpoint neighbours {B} (h : Z → Z → list B) (t : list Z) : list B :=
  match t with
  | a :: (b :: _) as t' => h b a ++ neighbours h t'
  | _ => []
  end.

(** One request answered by one notification fifty milliseconds later. *)
Definition one_answered_request : Cassie.t :=
  {| count := 1;
     requests := [{| value := 0; time := 100 |}];
     notifications := [{| value := 0; time := 150 |}];
     intervals := [{| start := 110; finish := 140 |}];
     pending := ∅; finished := [];
     localDetectionErrors := 0; globalDetectionErrors := 0;
     notPersistedErrors := 0; delayedRequests := 0; dbWrites := [0] |}.

End AveragesNotions.

Section OverlapNotions.
Import Cassie Report.

(** The count in the words of the specification: the pairs [(i, j)] of
positions with [j] before [i] and [i] finishing before [j]. *)
Definition later_finishing_pairs (ivs : list Interval) : nat :=
  length (List.filter
            (λ p : nat * nat,
               match ivs !! p.1, ivs !! p.2 with
               | Some a, Some b => (p.2 <? p.1)%nat && (finish a <? finish b)
               | _, _ => false
               end)
            (list_prod (seq 0 (length ivs)) (seq 0 (length ivs)))).

(** Position [i] of [l] is outlasted by an earlier position. *)
Definition outlasted (l : list Interval) (i : nat) : Prop :=
  ∃ a j b, l !! i = Some a ∧ (j < i)%nat ∧ l !! j = Some b ∧
           finish a < finish b.

(** The inner loop of [overlapping] as a test. *)
Definition scan_before (l : list Interval) (i : nat) : bool :=
  existsb (λ j : nat,
             match l !! j, l !! i with
             | Some a, Some b => finish b <? finish a
             | _, _ => false
             end)
          (seq 0 i).

End OverlapNotions.

Section LostNotions.
Import Cassie Report.

(** The integers in the gaps of a list, by recursion on the list. *)
Fixpoint gaps (s : list Z) : list Z :=
  match s with
  | a :: (b :: _) as s' => (if 1 <? b - a then between a b else []) ++ gaps s'
  | _ => []
  end.

End LostNotions.

Section ClassificationNotions.
Import Cassie Report.

(** One request, value 0, whose write never reached [cassie.write]: no
    database write, no notification. *)
Definition one_failed_request : Cassie.t :=
  {| count := 0;
     requests := [{| value := 0; time := 100 |}];
     notifications := []; intervals := [];
     pending := ∅; finished := [];
     localDetectionErrors := 0; globalDetectionErrors := 0;
     notPersistedErrors := 0; delayedRequests := 0; dbWrites := [] |}.

(** Two writes pushed as they finished: the one started at 10 before the
    one started at 0. *)
Definition two_writes_out_of_order : Cassie.t :=
  {| count := 0; requests := []; notifications := [];
     intervals := [{| start := 10; finish := 12 |};
                   {| start := 0; finish := 30 |}];
     pending := ∅; finished := [];
     localDetectionErrors := 0; globalDetectionErrors := 0;
     notPersistedErrors := 0; delayedRequests := 0; dbWrites := [4; 5] |}.

(** Requests 0, 2, 1 of which 0 and 2 were written and notified. *)
Definition lost_request_last : Cassie.t :=
  {| count := 2;
     requests := [{| value := 0; time := 100 |};
                  {| value := 2; time := 110 |};
                  {| value := 1; time := 120 |}];
     notifications := [{| value := 0; time := 105 |};
                       {| value := 2; time := 115 |}];
     intervals := [{| start := 101; finish := 104 |};
                   {| start := 111; finish := 114 |}];
     pending := ∅; finished := [];
     localDetectionErrors := 0; globalDetectionErrors := 0;
     notPersistedErrors := 0; delayedRequests := 0; dbWrites := [0; 2] |}.

End ClassificationNotions.

Section TeardownNotions.
Import Hub.

(** [l] holds [f] once, or nothing. *)
Definition at_most_once (f : listener) (l : list listener) : Prop :=
  l = [] ∨ l = [f].

(** Every session reached from [open] has each of its three global
listeners registered at most once. *)
Definition globals_once (s : Session) : Prop :=
  at_most_once onThingAdded (thing_added s) ∧
  at_most_once onPropertyChanged (property_changed s) ∧
  at_most_once onActionStatus (action_status s).

(** The thing a removal was made at, when it was made at a thing. *)
Definition at_thing (r : removal) : option string :=
  match r with
  | unregistered (thing_event id) _
  | unregistered (thing_connected id) _
  | unregistered (thing_removed id) _
  | unregistered (thing_modified id) _ => Some id
  | _ => None
  end.

End TeardownNotions.

Section StringsNotions.
Import Queries.

(** [s] holds no dash. *)
Fixpoint dashless (s : string) : Prop :=
  match s with
  | EmptyString => True
  | String c rest => c ≠ "-"%char ∧ dashless rest
  end.

(** The pieces of a list, one after the other. *)
Definition joined {A} (piece : A → string) (l : list A) : string :=
  foldr (λ x acc, piece x +:+ acc) EmptyString l.

End StringsNotions.

Section StreamsNotions.
Import Cassie.

(** The trace holds no reset. *)
Definition no_reset (evs : list Trace.event) : Prop :=
  Forall (λ e, e ≠ Trace.reset) evs.

(** What the events of a trace hand to the streams, in order. *)
Fixpoint written (evs : list Trace.event) : list Z :=
  match evs with
  | [] => []
  | Trace.write v :: evs' => v :: written evs'
  | _ :: evs' => written evs'
  end.

Fixpoint requested (evs : list Trace.event) : list Entry :=
  match evs with
  | [] => []
  | Trace.request e :: evs' => e :: requested evs'
  | _ :: evs' => requested evs'
  end.

Fixpoint notified (evs : list Trace.event) : list Entry :=
  match evs with
  | [] => []
  | Trace.notification e :: evs' => e :: notified evs'
  | _ :: evs' => notified evs'
  end.

(** How many events of a trace pass a test. *)
Definition how_many (test : Trace.event → bool) (evs : list Trace.event)
  : nat :=
  length (List.filter test evs).

Definition is_propertyChanged (e : Trace.event) : bool :=
  match e with Trace.propertyChanged => true | _ => false end.

(** An acknowledgment that came back with a warning list starting with
    ["DELAY"]. *)
Definition is_delayed (e : Trace.event) : bool :=
  match e with
  | Trace.ack _ (Returned r) _ =>
    match warnings r with
    | Some ws => bool_decide (ws !! 0%nat = Some "DELAY"%string)
    | None => false
    end
  | _ => false
  end.

(** A consistency error whose message starts with [p]. *)
Definition error_with (p : string) (e : Trace.event) : bool :=
  match e with
  | Trace.consistencyError msg => String.prefix p msg
  | _ => false
  end.

(** The clock never runs backwards along the trace, starting at [t], and
    no acknowledgment is stamped before its [write] was called. *)
Fixpoint timed (t : Z) (evs : list Trace.event) : Prop :=
  match evs with
  | [] => True
  | Trace.ack w _ now :: evs' => opened w ≤ now ∧ t ≤ now ∧ timed now evs'
  | Trace.finishedProcessing _ now :: evs' => t ≤ now ∧ timed now evs'
  | _ :: evs' => timed t evs'
  end.

End StreamsNotions.

Section AccountingNotions.
Import Cassie Report.

(** What the variables of the classification loop keep between
    iterations. *)
Record accounted (c : Cassie.t) (s : Scan) : Prop := {
  lines_so_far : length (str s) = reqPointer s;
  within_requests : (reqPointer s ≤ length (requests c))%nat;
  requests_split : (correctReq s + incorrectReq s)%nat = reqPointer s;
  cursors_ordered : (notifPointer s ≤ reqPointer s)%nat;
  wrong_reads : (dbReadWrongValue s ≤ wrong s)%nat;
  wrong_notified : (wrong s ≤ notifPointer s)%nat;
  latencies_notified : (length (processingTime s) ≤ notifPointer s)%nat;
  lines_numbered : ∀ i line,
      str s !! i = Some line →
      number line = i ∧ ∃ r, requests c !! i = Some r ∧ sent line = value r }.

End AccountingNotions.

Section FanoutNotions.
Import Hub.

(** The event names the subscription messages of a trace bring. *)
Fixpoint subscribed (evs : list Hub.event) : gset string :=
  match evs with
  | [] => ∅
  | message names :: evs' => list_to_set names ∪ subscribed evs'
  | _ :: evs' => subscribed evs'
  end.

(** The four subscriptions the [k]-th call of [addThing] makes, and
    nothing else. *)
Definition singles (k : nat) : Thing :=
  {| event_subscriptions := [onEvent];
     connected_subscriptions := [onConnected k];
     removed_subscriptions := [onRemoved k];
     modified_subscriptions := [onModified k] |}.

(** No thing is added while a cleanup for it is still stored. *)
Fixpoint added_once (evs : list Hub.event) (s : Session) : Prop :=
  match evs with
  | [] => True
  | e :: evs' =>
    match e with
    | thing id => thingCleanups s !! id = None
    | _ => True
    end ∧ added_once evs' (handle e s)
  end.

(** Every thing carries the subscriptions of the cleanup stored for it,
    or none. *)
Definition tidy (s : Session) : Prop :=
  ∀ id,
    match thingCleanups s !! id with
    | Some k => things s !! id = Some (singles k)
    | None => the_thing id s = no_subscriptions
    end.

End FanoutNotions.

(** * Properties *)

(** ** The write correlator *)

Section Correlator.
Import Cassie.

Lemma linked_init : linked [] init [].
Proof.
  split; try (intros x [k [w [H _]]]; simpl in H;
              rewrite lookup_empty in H; discriminate).
  - constructor.
  - intros x H. inversion H.
  - intros k1 k2 w1 w2 H. simpl in H. rewrite lookup_empty in H.
    discriminate.
Qed.

Lemma linked_same_pending seen c c' out :
  pending c' = pending c → linked seen c out → linked seen c' out.
Proof.
  intros E [H1 H2 H3 H4 H5].
  split; auto; unfold parked in *; rewrite E; auto.
Qed.

Lemma linked_more_seen seen x c out :
  linked seen c out → linked (seen ++ [x]) c out.
Proof.
  intros [H1 H2 H3 H4 H5]. split; auto.
  - intros y Hy. apply elem_of_app. left. auto.
  - intros y Hy. apply elem_of_app. left. auto.
Qed.

Lemma linked_settle seen w now c out :
  caller w ∉ seen → linked seen c out →
  linked (seen ++ [caller w]) (settle w now c).1 (out ++ (settle w now c).2).
Proof.
  intros Hnew [H1 H2 H3 H4 H5]. simpl. split.
  - apply NoDup_app. split; [done|]. split.
    + intros x Hx Hx'. apply list_elem_of_singleton in Hx'. subst x.
      apply Hnew. auto.
    + apply NoDup_singleton.
  - intros x Hx. apply elem_of_app in Hx as [Hx|Hx]; apply elem_of_app.
    + left. auto.
    + right. done.
  - intros x Hx. apply elem_of_app. left. apply H3. exact Hx.
  - intros x Hx Hx'. apply elem_of_app in Hx' as [Hx'|Hx'].
    + exact (H4 x Hx Hx').
    + apply list_elem_of_singleton in Hx'. subst x. apply Hnew.
      apply H3. exact Hx.
  - exact H5.
Qed.

Lemma linked_park seen ts w c out :
  caller w ∉ seen → linked seen c out →
  linked (seen ++ [caller w]) (pendingExecution ts w c) out.
Proof.
  intros Hnew [H1 H2 H3 H4 H5]. split.
  - done.
  - intros x Hx. apply elem_of_app. left. auto.
  - intros x [k [w' [Hk Hx]]]. simpl in Hk. apply elem_of_app.
    destruct (decide (ts = k)) as [->|Hne].
    + rewrite lookup_insert_eq in Hk. injection Hk as <-. right.
      subst x. apply list_elem_of_singleton. done.
    + rewrite lookup_insert_ne in Hk by done. left. apply H3.
      exists k, w'. done.
  - intros x [k [w' [Hk Hx]]] Hout. simpl in Hk.
    destruct (decide (ts = k)) as [->|Hne].
    + rewrite lookup_insert_eq in Hk. injection Hk as <-. subst x.
      apply Hnew. auto.
    + rewrite lookup_insert_ne in Hk by done.
      apply (H4 x); [exists k, w'; done | done].
  - intros k1 k2 w1 w2 Hk1 Hk2 Heq. simpl in Hk1, Hk2.
    destruct (decide (ts = k1)) as [<-|Hne1];
      destruct (decide (ts = k2)) as [<-|Hne2]; try done.
    + rewrite lookup_insert_eq in Hk1. injection Hk1 as <-.
      rewrite lookup_insert_ne in Hk2 by done.
      exfalso. apply Hnew. apply H3. exists k2, w2. done.
    + rewrite lookup_insert_eq in Hk2. injection Hk2 as <-.
      rewrite lookup_insert_ne in Hk1 by done.
      exfalso. apply Hnew. apply H3. exists k1, w1. done.
    + rewrite lookup_insert_ne in Hk1 by done.
      rewrite lookup_insert_ne in Hk2 by done. eauto.
Qed.

Lemma linked_signal seen msg now c out :
  linked seen c out →
  linked seen (finishedProcessing msg now c).1
         (out ++ (finishedProcessing msg now c).2).
Proof.
  intros L. unfold finishedProcessing.
  destruct (pending c !! slice_after_space msg) as [d|] eqn:E.
  - destruct L as [H1 H2 H3 H4 H5]. simpl.
    assert (Hd : parked (caller d) c) by (eexists _, d; done).
    split.
    + apply NoDup_app. split; [done|]. split.
      * intros x Hx Hx'. apply list_elem_of_singleton in Hx'. subst x.
        exact (H4 _ Hd Hx).
      * apply NoDup_singleton.
    + intros x Hx. apply elem_of_app in Hx as [Hx|Hx]; [auto|].
      apply list_elem_of_singleton in Hx. subst x. auto.
    + intros x [k [w [Hk Hx]]]. simpl in Hk.
      apply lookup_delete_Some in Hk as [_ Hk]. apply H3.
      exists k, w. done.
    + intros x [k [w [Hk Hx]]] Hout. simpl in Hk.
      apply lookup_delete_Some in Hk as [Hne Hk].
      apply elem_of_app in Hout as [Hout|Hout].
      * apply (H4 x); [exists k, w; done | done].
      * apply list_elem_of_singleton in Hout. subst x.
        apply Hne. symmetry. exact (H5 _ _ _ _ Hk E Hout).
    + intros k1 k2 w1 w2 Hk1 Hk2. simpl in Hk1, Hk2.
      apply lookup_delete_Some in Hk1 as [_ Hk1].
      apply lookup_delete_Some in Hk2 as [_ Hk2]. eauto.
  - simpl. rewrite app_nil_r.
    apply (linked_same_pending _ c); [done | exact L].
Qed.

Lemma linked_write_then seen w result now c out r :
  caller w ∉ seen → linked seen c out →
  write_then w result now c = Some r →
  linked (seen ++ [caller w]) r.1 (out ++ r.2).
Proof.
  intros Hnew L. unfold write_then.
  destruct result as [res|]; [|discriminate].
  destruct (warnings res) as [ws|].
  - destruct (decide (ws !! 0%nat = Some "DELAY"%string)).
    + set (c1 := set_delayedRequests (S (delayedRequests c)) c).
      assert (L1 : linked seen c1 out)
        by (apply (linked_same_pending _ c); [done | exact L]).
      destruct (ws !! 1%nat ≫= λ s, indexOf s (finished c1)) as [i|].
      * intros [= <-]. apply linked_settle; [done|].
        apply (linked_same_pending _ c1); [done | exact L1].
      * intros [= <-]. simpl. rewrite app_nil_r.
        apply linked_park; done.
    + intros [= <-]. apply linked_settle; done.
  - intros [= <-]. apply linked_settle; done.
Qed.

Lemma report_pending c s c' :
  Report.report c = Some (s, c') → pending c' = pending c.
Proof.
  unfold Report.report. destruct (Report.classify c); [|discriminate].
  intros [= _ <-]. done.
Qed.

Lemma linked_handle seen e c out :
  (∀ x, x ∈ Trace.acked [e] → x ∉ seen) → linked seen c out →
  linked (seen ++ Trace.acked [e]) (Trace.handle e c).1
         (out ++ (Trace.handle e c).2).
Proof.
  intros Hnew L.
  destruct e as [v|w reply now|msg now|msg|e| |e| |]; simpl;
    rewrite ?app_nil_r.
  - apply (linked_same_pending _ c); done.
  - assert (Hw : caller w ∉ seen)
      by (apply Hnew; simpl; apply list_elem_of_singleton; done).
    destruct (write_then w (execute reply).1 now c) as [r|] eqn:E.
    + eapply linked_write_then; eauto.
    + simpl. rewrite app_nil_r. apply linked_more_seen. done.
  - apply linked_signal. done.
  - apply (linked_same_pending _ c); [|done].
    unfold consistencyError. repeat case_match; done.
  - apply (linked_same_pending _ c); done.
  - apply (linked_same_pending _ c); done.
  - apply (linked_same_pending _ c); done.
  - destruct (Report.report c) as [[s c']|] eqn:E; simpl;
      rewrite app_nil_r; [|done].
    apply (linked_same_pending _ c); [|done].
    eapply report_pending. exact E.
  - apply (linked_same_pending _ c); done.
Qed.

Lemma acked_app evs1 evs2 :
  Trace.acked (evs1 ++ evs2) = Trace.acked evs1 ++ Trace.acked evs2.
Proof.
  induction evs1 as [|e evs1 IH]; [done|].
  destruct e; simpl; rewrite ?IH; done.
Qed.

Lemma run_app evs1 evs2 c :
  Trace.run (evs1 ++ evs2) c =
  ((Trace.run evs2 (Trace.run evs1 c).1).1,
   (Trace.run evs1 c).2 ++ (Trace.run evs2 (Trace.run evs1 c).1).2).
Proof.
  revert c. induction evs1 as [|e evs1 IH]; intros c; simpl.
  - destruct (Trace.run evs2 c); done.
  - destruct (Trace.handle e c) as [c1 o1].
    rewrite IH. destruct (Trace.run evs1 c1) as [c2 o2]. simpl.
    destruct (Trace.run evs2 c2) as [c3 o3]. simpl.
    rewrite app_assoc. done.
Qed.

Lemma acked_cons e evs :
  Trace.acked (e :: evs) = Trace.acked [e] ++ Trace.acked evs.
Proof. exact (acked_app [e] evs). Qed.

Lemma run_cons e evs c :
  Trace.run (e :: evs) c =
  ((Trace.run evs (Trace.handle e c).1).1,
   (Trace.handle e c).2 ++ (Trace.run evs (Trace.handle e c).1).2).
Proof.
  simpl. destruct (Trace.handle e c) as [c1 o1]. simpl.
  destruct (Trace.run evs c1); done.
Qed.

Lemma linked_run evs : ∀ seen c out,
  NoDup (seen ++ Trace.acked evs) → linked seen c out →
  linked (seen ++ Trace.acked evs) (Trace.run evs c).1
         (out ++ (Trace.run evs c).2).
Proof.
  induction evs as [|e evs IH]; intros seen c out Hnd L.
  - simpl. rewrite !app_nil_r. done.
  - rewrite acked_cons, app_assoc in Hnd.
    rewrite run_cons, acked_cons. cbn [fst snd].
    rewrite (app_assoc seen), (app_assoc out).
    apply IH; [done|]. apply linked_handle; [|done].
    intros x Hx Hs. apply NoDup_app in Hnd as [Hnd _].
    apply NoDup_app in Hnd as (_ & Hd & _). exact (Hd x Hs Hx).
Qed.

(** [indexOf] and [splice]: the first occurrence and its removal. *)
Lemma indexOf_Some x l i :
  indexOf x l = Some i →
  ∃ l1 l2, l = l1 ++ x :: l2 ∧ (x ∉ l1) ∧ splice1 i l = l1 ++ l2.
Proof.
  revert i. induction l as [|y l IH]; intros i; simpl; [discriminate|].
  destruct (decide (y = x)) as [->|Hne].
  - intros [= <-]. exists [], l. split; [done|]. split; [|done].
    apply not_elem_of_nil.
  - destruct (indexOf x l) as [j|]; [|discriminate].
    intros [= <-]. destruct (IH j eq_refl) as (l1 & l2 & -> & Hn & Hs).
    exists (y :: l1), l2. split; [done|]. split.
    + intros H. apply elem_of_cons in H as [H|H]; [congruence | done].
    + unfold splice1 in *. simpl. rewrite Hs. done.
Qed.

Lemma indexOf_None x l : indexOf x l = None ↔ x ∉ l.
Proof.
  induction l as [|y l IH]; simpl.
  - split; [intros _; apply not_elem_of_nil | done].
  - destruct (decide (y = x)) as [->|Hne].
    + split; [discriminate|]. intros H. exfalso. apply H. left.
    + destruct (indexOf x l); simpl.
      * split; [discriminate|]. intros H. exfalso.
        assert (Hx : x ∉ l) by (intros Hx; apply H; right; done).
        apply IH in Hx. discriminate.
      * split; [|done]. intros _ H.
        apply elem_of_cons in H as [H|H]; [congruence|].
        revert H. apply IH. done.
Qed.



(** A pending correlation stays until its signal, unless another delayed
    acknowledgment for the same token takes its place. *)
Lemma pending_kept ts e c :
  Trace.delayed_for ts e = false → Trace.signal_for ts e = false →
  pending (Trace.handle e c).1 !! ts = pending c !! ts.
Proof.
  intros Hd Hs.
  destruct e as [v|w reply now|msg now|msg|e| |e| |]; simpl; try done.
  - destruct reply as [res|]; simpl; [|done].
    unfold write_then. simpl in Hd.
    destruct (warnings res) as [ws|]; [|done].
    destruct (decide (ws !! 0%nat = Some "DELAY"%string)) as [E0|]; [|done].
    rewrite (bool_decide_eq_true_2 _ E0) in Hd. simpl in Hd.
    apply bool_decide_eq_false in Hd.
    destruct (ws !! 1%nat ≫= _) as [i|]; simpl; [done|].
    rewrite lookup_insert_ne; done.
  - simpl in Hs. apply bool_decide_eq_false in Hs.
    unfold finishedProcessing.
    destruct (pending c !! slice_after_space msg); simpl; [|done].
    rewrite lookup_delete_ne; done.
  - unfold consistencyError. repeat case_match; done.
  - destruct (Report.report c) as [[s c']|] eqn:E; simpl; [|done].
    rewrite (report_pending _ _ _ E). done.
Qed.

Lemma pending_kept_run ts evs : ∀ c,
  Forall (λ e, Trace.delayed_for ts e = false ∧
               Trace.signal_for ts e = false) evs →
  pending (Trace.run evs c).1 !! ts = pending c !! ts.
Proof.
  induction evs as [|e evs IH]; intros c Hall; [done|].
  rewrite run_cons. cbn [fst]. inversion Hall as [|? ? [Hd Hs] Hall']; subst.
  rewrite IH by done. apply pending_kept; done.
Qed.

(** C1.  Along any trace from the initial state in which every call of
    [write] is acknowledged at most once, no caller is fulfilled twice.
    A completion signal that finds a pending correlation for its token
    fulfills that caller, who was not fulfilled before, removes the
    correlation, and nothing after it fulfills that caller again.  The
    order of signals and acknowledgments in the trace is arbitrary. *)
Theorem write_resolved_at_most_once (evs : list Trace.event) :
  NoDup (Trace.acked evs) →
  NoDup (Trace.run evs init).2 ∧
  ∀ pre msg now post w,
    evs = pre ++ Trace.finishedProcessing msg now :: post →
    pending (Trace.run pre init).1 !! slice_after_space msg = Some w →
    let r := finishedProcessing msg now (Trace.run pre init).1 in
    r.2 = [caller w] ∧
    pending r.1 !! slice_after_space msg = None ∧
    (caller w ∉ (Trace.run pre init).2) ∧
    (caller w ∉ (Trace.run post r.1).2).
Proof.
  intros Hnd.
  assert (L := linked_run evs [] init [] Hnd linked_init).
  simpl in L. destruct L as [Hout _ _ _ _].
  split; [exact Hout|].
  intros pre msg now post w -> Hw r.
  assert (Er : r = (settle w now (set_pending
               (delete (slice_after_space msg)
                       (pending (Trace.run pre init).1))
               (Trace.run pre init).1)))
    by (unfold r, finishedProcessing; rewrite Hw; done).
  rewrite run_app, run_cons in Hout. cbn [fst snd] in Hout.
  change (Trace.handle (Trace.finishedProcessing msg now)
            (Trace.run pre init).1) with r in Hout.
  assert (E2 : r.2 = [caller w]) by (rewrite Er; done).
  rewrite E2 in Hout.
  apply NoDup_app in Hout as (_ & Hpre & Hpost).
  apply NoDup_app in Hpost as (_ & Hpost & _).
  split; [exact E2|]. split.
  - rewrite Er. simpl. apply lookup_delete_eq.
  - split.
    + intros H. apply (Hpre _ H). apply elem_of_app. left.
      apply list_elem_of_singleton. done.
    + apply Hpost. apply list_elem_of_singleton. done.
Qed.


(** C3, as amended.  When every delayed acknowledgment names its token,
    no token is at once a key of [pending] and a member of [finished];
    and a signal that finds no pending correlation appends its token to
    [finished] whether or not the token is already there. *)
Theorem never_pending_and_finished (evs : list Trace.event) :
  Forall (λ e, Trace.names_token e = true) evs →
  (∀ ts, ¬ (is_Some (pending (Trace.run evs init).1 !! ts) ∧
            ts ∈ finished (Trace.run evs init).1)) ∧
  (∀ msg now,
      pending (Trace.run evs init).1 !! slice_after_space msg = None →
      finished (finishedProcessing msg now (Trace.run evs init).1).1 =
      finished (Trace.run evs init).1 ++ [slice_after_space msg]).
Proof.
  intros Hall. split.
  - assert (G : ∀ c, (∀ ts, is_Some (pending c !! ts) → ts ∉ finished c) →
                ∀ ts, is_Some (pending (Trace.run evs c).1 !! ts) →
                      ts ∉ finished (Trace.run evs c).1).
    { induction Hall as [|e evs He Hall IH]; intros c Hc; [exact Hc|].
      rewrite run_cons. cbn [fst]. apply IH. clear IH Hall evs.
      intros ts.
      destruct e as [v|w reply now|msg now|msg|e| |e| |]; simpl;
        try exact (Hc ts).
      - destruct reply as [res|]; simpl; [|exact (Hc ts)].
        unfold write_then. simpl in He.
        destruct (warnings res) as [ws|]; [|exact (Hc ts)].
        destruct (decide (ws !! 0%nat = Some "DELAY"%string));
          [|exact (Hc ts)].
        apply bool_decide_eq_true in He. destruct He as [t' Et].
        rewrite Et. simpl.
        destruct (indexOf t' (finished c)) as [i|] eqn:Ei; simpl.
        + intros Hp Hin. apply (Hc ts Hp).
          destruct (indexOf_Some _ _ _ Ei) as (l1 & l2 & El & _ & Hs).
          rewrite Hs in Hin. rewrite El.
          apply elem_of_app in Hin as [Hin|Hin];
            apply elem_of_app; [left; done | right; right; done].
        + apply indexOf_None in Ei.
          destruct (decide (t' = ts)) as [->|Hne]; [done|].
          rewrite lookup_insert_ne by done. exact (Hc ts).
      - unfold finishedProcessing.
        destruct (pending c !! slice_after_space msg) as [d|] eqn:E;
          simpl.
        + intros [x Hx]. apply lookup_delete_Some in Hx as [_ Hx].
          apply Hc. eexists. exact Hx.
        + intros Hp Hin. apply elem_of_app in Hin as [Hin|Hin].
          * exact (Hc ts Hp Hin).
          * apply list_elem_of_singleton in Hin. subst ts.
            rewrite E in Hp. destruct Hp. discriminate.
      - unfold consistencyError. repeat case_match; exact (Hc ts).
      - destruct (Report.report c) as [[s c']|] eqn:E; simpl;
          [|exact (Hc ts)].
        rewrite (report_pending _ _ _ E).
        unfold Report.report in E.
        destruct (Report.classify c); [|done].
        injection E as _ <-. exact (Hc ts). }
    intros ts [Hp Hin]. revert Hin. apply G; [|exact Hp].
    intros k [x Hx]. simpl in Hx. rewrite lookup_empty in Hx.
    discriminate.
  - intros msg now Hp. unfold finishedProcessing. rewrite Hp. done.
Qed.

Lemma write_resolved_at_most_once_witness :
  NoDup (Trace.acked late_signal_twice) ∧
  NoDup (Trace.run late_signal_twice init).2.
Proof.
  assert (H : NoDup (Trace.acked late_signal_twice))
    by (simpl; apply NoDup_singleton).
  split; [exact H|].
  exact (proj1 (write_resolved_at_most_once late_signal_twice H)).
Defined.



Lemma never_pending_and_finished_witness :
  Forall (λ e, Trace.names_token e = true) late_signal_twice ∧
  ∀ ts, ¬ (is_Some (pending (Trace.run late_signal_twice init).1 !! ts) ∧
           ts ∈ finished (Trace.run late_signal_twice init).1).
Proof.
  assert (H : Forall (λ e, Trace.names_token e = true) late_signal_twice)
    by (repeat constructor).
  split; [exact H|].
  exact (proj1 (never_pending_and_finished late_signal_twice H)).
Defined.

(** The same completion signal delivered twice, with no write waiting
    for it, leaves its token in [finished] twice. *)
Lemma signal_twice_duplicates_marker :
  ¬ one_place_once
      (Trace.run [Trace.finishedProcessing "finished 7" 1;
                  Trace.finishedProcessing "finished 7" 2] init).1.
Proof.
  intros [H _].
  assert (E : finished
                (Trace.run [Trace.finishedProcessing "finished 7" 1;
                            Trace.finishedProcessing "finished 7" 2]
                           init).1 = ["7"; "7"]%string)
    by (vm_compute; reflexivity).
  rewrite E in H. apply NoDup_cons in H as [H _]. apply H. left.
Qed.

End Correlator.

(** ** A failing storage call *)

Section Failure.
Import Cassie.

(** The handlers fulfill only the caller they were called for, or a parked
one. *)
Lemma handle_fulfills x e c :
  x ∈ (Trace.handle e c).2 → x ∈ Trace.acked [e] ∨ parked x c.
Proof.
  destruct e as [v|w reply now|msg now|msg|e| |e| |]; simpl;
    try (intros H; apply elem_of_nil in H; done).
  - destruct (write_then w (execute reply).1 now c) as [r|] eqn:E;
      [|intros H; apply elem_of_nil in H; done].
    unfold write_then in E.
    destruct (execute reply).1 as [res|]; [|done].
    assert (S : ∀ c0, x ∈ (settle w now c0).2 → x ∈ [caller w] ∨ parked x c)
      by (intros c0 H; left; exact H).
    destruct (warnings res) as [ws|]; [|injection E as <-; apply S].
    destruct (decide (ws !! 0%nat = Some "DELAY"%string));
      [|injection E as <-; apply S].
    destruct (ws !! 1%nat ≫= _); injection E as <-; [apply S|].
    intros H. apply elem_of_nil in H. done.
  - unfold finishedProcessing.
    destruct (pending c !! slice_after_space msg) as [d|] eqn:E; simpl.
    + intros H. apply list_elem_of_singleton in H. right.
      exists (slice_after_space msg), d. done.
    + intros H. apply elem_of_nil in H. done.
  - destruct (Report.report c) as [[s c']|];
      intros H; apply elem_of_nil in H; done.
Qed.

(** A caller parked after a handler was parked before it, or is the one
the handler was called for. *)
Lemma handle_parks x e c :
  parked x (Trace.handle e c).1 → x ∈ Trace.acked [e] ∨ parked x c.
Proof.
  destruct e as [v|w reply now|msg now|msg|e| |e| |]; simpl;
    try (intros H; right; exact H).
  - destruct (write_then w (execute reply).1 now c) as [r|] eqn:E;
      [|intros H; right; exact H].
    unfold write_then in E.
    destruct (execute reply).1 as [res|]; [|done].
    destruct (warnings res) as [ws|];
      [|injection E as <-; intros H; right; exact H].
    destruct (decide (ws !! 0%nat = Some "DELAY"%string));
      [|injection E as <-; intros H; right; exact H].
    destruct (ws !! 1%nat ≫= _); injection E as <-;
      [intros H; right; exact H|].
    intros (k & w' & Hk & Hx). simpl in Hk.
    destruct (decide (key_of (ws !! 1%nat) = k)) as [<-|Hne].
    + rewrite lookup_insert_eq in Hk. injection Hk as <-. left.
      apply list_elem_of_singleton. done.
    + rewrite lookup_insert_ne in Hk by done. right. exists k, w'. done.
  - unfold finishedProcessing.
    destruct (pending c !! slice_after_space msg) as [d|] eqn:E; simpl.
    + intros (k & w' & Hk & Hx). simpl in Hk.
      apply lookup_delete_Some in Hk as [_ Hk]. right. exists k, w'. done.
    + intros H. right. exact H.
  - unfold consistencyError. repeat case_match; intros Hx; right; exact Hx.
  - destruct (Report.report c) as [[s c']|] eqn:E; simpl;
      [|intros H; right; exact H].
    intros (k & w' & Hk & Hx). rewrite (report_pending _ _ _ E) in Hk.
    right. exists k, w'. done.
Qed.

Lemma never_fulfilled x evs : ∀ c,
  x ∉ Trace.acked evs → ¬ parked x c → x ∉ (Trace.run evs c).2.
Proof.
  induction evs as [|e evs IH]; intros c Ha Hp.
  - simpl. apply not_elem_of_nil.
  - rewrite acked_cons in Ha. rewrite run_cons. cbn [snd].
    intros H. apply elem_of_app in H as [H|H].
    + apply handle_fulfills in H as [H|H]; [|done].
      apply Ha. apply elem_of_app. left. done.
    + revert H. apply IH.
      * intros H. apply Ha. apply elem_of_app. right. done.
      * intros H. apply handle_parks in H as [H|H]; [|done].
        apply Ha. apply elem_of_app. left. done.
Qed.

(** C8, at the failing input.  When the driver throws, [execute] logs and
returns [undefined]; [read] then rejects, because it reads [rows] of
[undefined]; the callback of [write] raises on [result.info] before it
fulfills anyone, and the caller of that [write] is never fulfilled by
anything that happens afterwards. *)
Theorem storage_failure_reaches_callers
    (w : Waiter) (now : Z) (c : Cassie.t) (propertyName : string) :
  execute Thrown = (None, ["Error with Cassandra query: "%string]) ∧
  read propertyName Thrown = Rejected ∧
  write_then w (execute Thrown).1 now c = None ∧
  ∀ evs, caller w ∉ Trace.acked evs → ¬ parked (caller w) c →
         caller w ∉ (Trace.run (Trace.ack w Thrown now :: evs) c).2.
Proof.
  split; [done|]. split; [done|]. split; [done|].
  intros evs Ha Hp. rewrite run_cons. simpl.
  apply never_fulfilled; done.
Qed.

Lemma storage_failure_reaches_callers_witness :
  caller {| caller := 1; opened := 5 |} ∉
    (Trace.run [Trace.ack {| caller := 1; opened := 5 |} Thrown 6;
                Trace.finishedProcessing "finished 7" 9] init).2.
Proof.
  refine (proj2 (proj2 (proj2
    (storage_failure_reaches_callers {| caller := 1; opened := 5 |} 6 init
       "level"))) [Trace.finishedProcessing "finished 7" 9] _ _).
  - simpl. apply not_elem_of_nil.
  - intros (k & w' & Hk & _). simpl in Hk. rewrite lookup_empty in Hk.
    discriminate.
Defined.

End Failure.

(** ** The reset of the diagnostic streams *)

Section Reset.
Import Cassie.

Lemma handle_same_correlations e c c' :
  same_correlations c c' →
  same_correlations (Trace.handle e c).1 (Trace.handle e c').1 ∧
  (Trace.handle e c).2 = (Trace.handle e c').2.
Proof.
  intros [Hp Hf].
  assert (R : ∀ c0, same_correlations
                      (match Report.report c0 with
                       | Some (_, c1) => (c1, @nil nat)
                       | None => (c0, [])
                       end).1 c0).
  { intros c0. unfold Report.report.
    destruct (Report.classify c0); split; done. }
  destruct e as [v|w reply now|msg now|msg|e| |e| |]; simpl;
    try (split; [split|]; done).
  - unfold write_then. destruct (execute reply).1 as [res|]; [|done].
    destruct (warnings res) as [ws|]; [|done].
    destruct (decide (ws !! 0%nat = Some "DELAY"%string)); [|done].
    simpl. rewrite Hf.
    destruct (ws !! 1%nat ≫= _); simpl; [split; [split|]; simpl; congruence|].
    split; [split|]; simpl; congruence.
  - unfold finishedProcessing. rewrite Hp.
    destruct (pending c' !! slice_after_space msg); simpl;
      split; try split; simpl; congruence.
  - split; [|done]. unfold consistencyError.
    repeat case_match; split; done.
  - split.
    + destruct (R c) as [R1 R2], (R c') as [R1' R2'].
      split; congruence.
    + destruct (Report.report c) as [[? ?]|],
               (Report.report c') as [[? ?]|]; done.
Qed.

Lemma run_same_correlations evs : ∀ c c',
  same_correlations c c' →
  same_correlations (Trace.run evs c).1 (Trace.run evs c').1 ∧
  (Trace.run evs c).2 = (Trace.run evs c').2.
Proof.
  induction evs as [|e evs IH]; intros c c' H; [done|].
  rewrite !run_cons. cbn [fst snd].
  destruct (handle_same_correlations e c c' H) as [H1 H2].
  destruct (IH _ _ H1) as [H3 H4]. split; [done|]. congruence.
Qed.

(** C10.  The reset sets the notification count and the four counters to
zero and empties the request, notification, interval and database-write
streams; [pending] and [finished] are as before.  Whatever happens after
the reset fulfills the same callers, in the same order, as it would have
without the reset; so a write parked before the reset is fulfilled by its
signal after it. *)
Theorem reset_keeps_correlations (c : Cassie.t) :
  Report.reset c =
    {| count := 0; requests := []; notifications := []; intervals := [];
       pending := pending c; finished := finished c;
       localDetectionErrors := 0; globalDetectionErrors := 0;
       notPersistedErrors := 0; delayedRequests := 0; dbWrites := [] |} ∧
  (∀ evs, (Trace.run evs (Report.reset c)).2 = (Trace.run evs c).2) ∧
  (∀ msg now w,
      pending c !! slice_after_space msg = Some w →
      (finishedProcessing msg now (Report.reset c)).2 = [caller w] ∧
      intervals (finishedProcessing msg now (Report.reset c)).1 =
        [{| start := opened w; finish := now |}]).
Proof.
  split; [done|]. split.
  - intros evs. apply run_same_correlations. split; done.
  - intros msg now w H. unfold finishedProcessing. simpl. rewrite H. done.
Qed.

Lemma reset_keeps_correlations_witness :
  (finishedProcessing "finished 7" 9
     (Report.reset
        (pendingExecution "7" {| caller := 1; opened := 5 |} init))).2 = [1%nat].
Proof.
  refine (proj1 (proj2 (proj2 (reset_keeps_correlations
            (pendingExecution "7" {| caller := 1; opened := 5 |} init)))
          "finished 7"%string 9 {| caller := 1; opened := 5 |} _)).
  simpl. apply lookup_insert_eq.
Defined.

End Reset.

(** ** The averages of the report *)

Section Averages.
Import Cassie Report.

Lemma flat_map_seq_shift {A} (f : nat → list A) n : ∀ a,
  flat_map f (seq (S a) n) = flat_map (λ i, f (S i)) (seq a n).
Proof.
  induction n as [|n IH]; intros a; [done|].
  simpl. rewrite <- IH. done.
Qed.

Lemma flat_map_seq_ext {A} (f g : nat → list A) n : ∀ a,
  (∀ i, (a ≤ i)%nat → f i = g i) →
  flat_map f (seq a n) = flat_map g (seq a n).
Proof.
  induction n as [|n IH]; intros a H; [done|].
  simpl. rewrite (H a) by lia. rewrite (IH (S a)); [done|].
  intros i Hi. apply H. lia.
Qed.

Lemma at_neighbours_cons {B} (h : Z → Z → list B) a t i :
  (1 ≤ i)%nat → at_neighbours h (a :: t) (S i) = at_neighbours h t i.
Proof.
  intros Hi. unfold at_neighbours. destruct i as [|i]; [lia|].
  simpl. rewrite Nat.sub_0_r. done.
Qed.

Lemma flat_map_neighbours {B} (h : Z → Z → list B) t :
  flat_map (at_neighbours h t) (seq 1 (length t - 1)) = neighbours h t.
Proof.
  induction t as [|a t IH]; [done|].
  destruct t as [|b t]; [done|].
  change (length (a :: b :: t) - 1)%nat with (S (length t)).
  change (neighbours h (a :: b :: t)) with (h b a ++ neighbours h (b :: t)).
  rewrite <- IH. simpl seq. simpl flat_map.
  change (at_neighbours h (a :: b :: t) 1) with (h b a). f_equal.
  rewrite Nat.sub_0_r, flat_map_seq_shift.
  apply flat_map_seq_ext. intros i Hi. apply at_neighbours_cons. done.
Qed.

Lemma neighbours_deltas t : neighbours (λ a b, [a - b]) t = deltas t.
Proof.
  induction t as [|a t IH]; [done|].
  destruct t as [|b t]; [done|]. simpl in *. rewrite IH. done.
Qed.

Lemma timeBetween_from1_deltas t : timeBetween_from1 t = deltas t.
Proof.
  rewrite <- neighbours_deltas, <- flat_map_neighbours. done.
Qed.

Lemma timeBetween_from0_deltas t : timeBetween_from0 t = deltas t.
Proof.
  rewrite <- timeBetween_from1_deltas.
  unfold timeBetween_from0, timeBetween_from1.
  destruct t as [|a t]; [done|].
  change (length (a :: t) - 1)%nat with (length t - 0)%nat.
  rewrite Nat.sub_0_r. simpl seq. simpl flat_map.
  apply flat_map_seq_ext. intros i Hi.
  destruct i as [|i]; [lia|]. done.
Qed.

Lemma deltas_short t : (length t < 2)%nat → deltas t = [].
Proof. destruct t as [|a [|b t]]; simpl; [done|done|lia]. Qed.

Lemma reduce_add_sum l : reduce_add l = foldr Z.add 0 l.
Proof.
  destruct l as [|a l]; [done|]. simpl.
  revert a. induction l as [|b l IH]; intros a; simpl; [lia|].
  rewrite IH. lia.
Qed.

Lemma avgOf_nearest l : l ≠ [] → nearest_to_mean l (avgOf l).
Proof.
  intros Hl. unfold avgOf, nearest_to_mean, rnd_div.
  rewrite reduce_add_sum.
  assert (Hn : (0 < length l)%nat) by (destruct l; [done | simpl; lia]).
  destruct (Nat.ltb_spec 0 (length l)) as [_|]; [|lia].
  set (n := Z.of_nat (length l)). set (s := foldr Z.add 0 l).
  assert (Hn' : 0 < n) by (unfold n; lia).
  pose proof (Z.div_mod (2 * s + n) (2 * n) ltac:(lia)) as Hdm.
  pose proof (Z.mod_pos_bound (2 * s + n) (2 * n) ltac:(lia)) as Hb.
  split; nia.
Qed.

(** The classification loop collects only latencies. *)
Lemma body_latencies c lost s s' :
  body c lost s = Some s' →
  Forall (latency_of c) (processingTime s) →
  Forall (latency_of c) (processingTime s').
Proof.
  unfold body. intros E H.
  destruct (requests c !! reqPointer s) as [r|] eqn:Er; [|done].
  destruct (notifications c !! notifPointer s) as [n|] eqn:En;
    repeat case_match; try discriminate E; injection E as <-; simpl;
    try done;
    (apply Forall_app; split; [done|]; apply Forall_singleton;
     exists r, n; split; [eapply list_elem_of_lookup_2; exact Er|];
     split; [eapply list_elem_of_lookup_2; exact En | done]).
Qed.

Lemma while_latencies fuel : ∀ c lost s s',
  while fuel c lost s = Some s' →
  Forall (latency_of c) (processingTime s) →
  Forall (latency_of c) (processingTime s').
Proof.
  induction fuel as [|fuel IH]; intros c lost s s'; simpl.
  - destruct (reqPointer s <? length (requests c))%nat;
      intros [= <-]; done.
  - destruct (reqPointer s <? length (requests c))%nat;
      [|intros [= <-]; done].
    destruct (body c lost s) as [s1|] eqn:E; [|done].
    intros Hw H. eapply IH; [exact Hw|]. eapply body_latencies; eauto.
Qed.

(** The latencies collected are those printed on the lines that are not
flagged lost, in the order of the lines. *)
Lemma body_printed c lost s s' :
  body c lost s = Some s' →
  processingTime s = printed_latencies (str s) →
  processingTime s' = printed_latencies (str s').
Proof.
  unfold body. intros E H.
  destruct (requests c !! reqPointer s) as [r|] eqn:Er; [|done].
  destruct (notifications c !! notifPointer s) as [n|] eqn:En;
    repeat case_match; try discriminate E; injection E as <-;
    unfold printed_latencies; cbn [str processingTime];
    rewrite omap_app; fold (printed_latencies (str s)); rewrite <- H;
    simpl; rewrite ?app_nil_r; done.
Qed.

Lemma while_printed fuel : ∀ c lost s s',
  while fuel c lost s = Some s' →
  processingTime s = printed_latencies (str s) →
  processingTime s' = printed_latencies (str s').
Proof.
  induction fuel as [|fuel IH]; intros c lost s s'; simpl.
  - destruct (reqPointer s <? length (requests c))%nat;
      intros [= <-]; done.
  - destruct (reqPointer s <? length (requests c))%nat;
      [|intros [= <-]; done].
    destruct (body c lost s) as [s1|] eqn:E; [|done].
    intros Hw H. eapply IH; [exact Hw|]. eapply body_printed; eauto.
Qed.

Lemma avgOf_single d : avgOf [d] = d.
Proof.
  unfold avgOf, rnd_div.
  change (0 <? length [d])%nat with true. cbv iota.
  change (Z.of_nat (length [d])) with 1.
  change (reduce_add [d]) with d.
  symmetry. apply (Z.div_unique _ _ d 1); lia.
Qed.

(** C7, as amended.  The two interval averages are taken over the
differences of neighbouring time stamps and are [0] for fewer than two
samples.  The processing average is taken over the latencies the
classification loop collected: they are the latencies printed on the
lines that are not flagged lost, each the time from a recorded request to
a recorded notification; the average is [0] when there is none, and a
single latency is its own average.  Every non-empty average is the
integer nearest to the arithmetic mean (a half goes up).  Notification
times 100, 150, 180 give 40. *)
Theorem averages_rounded_mean (c : Cassie.t) :
  avgUpdate c = avgOf (deltas (map time (notifications c))) ∧
  avgWrite c = avgOf (deltas (map start (intervals c))) ∧
  (∀ s, classify c = Some s →
        avgProcessingTime c = Some (avgOf (processingTime s)) ∧
        Forall (latency_of c) (processingTime s) ∧
        processingTime s = printed_latencies (str s) ∧
        (processingTime s = [] → avgProcessingTime c = Some 0) ∧
        (∀ d, processingTime s = [d] → avgProcessingTime c = Some d) ∧
        (processingTime s ≠ [] →
         ∃ r, avgProcessingTime c = Some r ∧
              nearest_to_mean (processingTime s) r)) ∧
  ((length (notifications c) < 2)%nat → avgUpdate c = 0) ∧
  ((length (intervals c) < 2)%nat → avgWrite c = 0) ∧
  avgOf [] = 0 ∧
  (∀ d, avgOf [d] = d) ∧
  (∀ l, l ≠ [] → nearest_to_mean l (avgOf l)) ∧
  (map time (notifications c) = [100; 150; 180] → avgUpdate c = 40).
Proof.
  assert (E1 : avgUpdate c = avgOf (deltas (map time (notifications c))))
    by (unfold avgUpdate; rewrite timeBetween_from0_deltas; done).
  assert (E2 : avgWrite c = avgOf (deltas (map start (intervals c))))
    by (unfold avgWrite; rewrite timeBetween_from1_deltas; done).
  split; [exact E1|]. split; [exact E2|]. split.
  { intros s Hs.
    assert (Ea : avgProcessingTime c = Some (avgOf (processingTime s)))
      by (unfold avgProcessingTime; rewrite Hs; done).
    split; [exact Ea|]. split.
    { eapply while_latencies; [exact Hs|]. apply Forall_nil_2. }
    split.
    { eapply while_printed; [exact Hs|]. done. }
    split; [intros E; rewrite Ea, E; done|]. split.
    - intros d E. rewrite Ea, E, avgOf_single. done.
    - intros Hne. exists (avgOf (processingTime s)).
      split; [exact Ea | apply avgOf_nearest, Hne]. }
  split.
  { intros H. rewrite E1, deltas_short; [done|]. rewrite length_map. done. }
  split.
  { intros H. rewrite E2, deltas_short; [done|]. rewrite length_map. done. }
  split; [done|]. split; [exact avgOf_single|].
  split; [exact avgOf_nearest|].
  intros H. rewrite E1, H. done.
Qed.

Lemma averages_rounded_mean_witness :
  avgUpdate one_answered_request = 0 ∧ avgWrite one_answered_request = 0 ∧
  avgProcessingTime one_answered_request = Some 50.
Proof.
  destruct (averages_rounded_mean one_answered_request)
    as (_ & _ & H3 & H1 & H2 & _).
  split; [apply H1; simpl; lia|]. split; [apply H2; simpl; lia|].
  refine (proj1 (proj2 (proj2 (proj2 (proj2
            (H3 {| reqPointer := 1; notifPointer := 1;
                   str := [{| number := 0; sent := 0; seen := Some 0;
                              ms := Some 50; note := plain |}];
                   wrong := 0; dbReadWrongValue := 0;
                   correctReq := 1; incorrectReq := 0;
                   processingTime := [50] |} _))))) 50 eq_refl).
  vm_compute. reflexivity.
Defined.

(** With a single latency sample the processing average is that sample,
not [0]. *)
Lemma single_latency_is_its_average :
  ¬ (∀ c s, classify c = Some s → (length (processingTime s) < 2)%nat →
            avgProcessingTime c = Some 0).
Proof.
  intros H.
  assert (E : classify one_answered_request =
              Some {| reqPointer := 1; notifPointer := 1;
                      str := [{| number := 0; sent := 0; seen := Some 0;
                                 ms := Some 50; note := plain |}];
                      wrong := 0; dbReadWrongValue := 0;
                      correctReq := 1; incorrectReq := 0;
                      processingTime := [50] |})
    by (vm_compute; reflexivity).
  specialize (H _ _ E ltac:(simpl; lia)).
  unfold avgProcessingTime in H. rewrite E in H. vm_compute in H.
  discriminate.
Qed.

End Averages.

(** ** The overlap count of the report *)

Section Overlap.
Import Cassie Report.

Lemma scan_before_outlasted l i : scan_before l i = true ↔ outlasted l i.
Proof.
  unfold scan_before, outlasted. rewrite existsb_exists. split.
  - intros (j & Hj & H). apply in_seq in Hj.
    destruct (l !! j) as [b|] eqn:Ej; [|done].
    destruct (l !! i) as [a|] eqn:Ei; [|done].
    apply Z.ltb_lt in H. exists a, j, b. repeat split; [lia | done..].
  - intros (a & j & b & Ei & Hj & Ej & H). exists j. split.
    + apply in_seq. lia.
    + rewrite Ej, Ei. apply Z.ltb_lt. done.
Qed.

Lemma count_foldl (p : nat → bool) l : ∀ acc : nat,
  foldl (λ (acc : nat) (i : nat), if p i then S acc else acc) acc l =
  (acc + length (filter (λ i, p i = true) l))%nat.
Proof.
  induction l as [|i l IH]; intros acc; simpl; [lia|].
  rewrite IH. rewrite filter_cons.
  destruct (p i); simpl.
  - destruct (decide (true = true)); [simpl; lia | done].
  - destruct (decide (false = true)); [done | lia].
Qed.

(** [insert_by] and [sort_by] rearrange and order by the key. *)
Lemma insert_by_perm {A} (key : A → Z) x l : insert_by key x l ≡ₚ x :: l.
Proof.
  induction l as [|y l IH]; simpl; [done|].
  destruct (key x <=? key y); [done|].
  rewrite IH. apply Permutation_swap.
Qed.

Lemma sort_by_perm {A} (key : A → Z) l : sort_by key l ≡ₚ l.
Proof.
  induction l as [|x l IH]; simpl; [done|].
  rewrite insert_by_perm. rewrite IH. done.
Qed.

Lemma insert_by_sorted {A} (key : A → Z) x l :
  StronglySorted (λ a b, key a ≤ key b) l →
  StronglySorted (λ a b, key a ≤ key b) (insert_by key x l).
Proof.
  induction 1 as [|y l Hl IH Hy]; simpl.
  - repeat constructor.
  - destruct (Z.leb_spec (key x) (key y)) as [Hxy|Hxy].
    + constructor; [constructor; done|].
      constructor; [done|].
      eapply Forall_impl; [exact Hy|]. simpl. intros. lia.
    + constructor; [exact IH|].
      rewrite insert_by_perm. constructor; [lia | done].
Qed.

Lemma sort_by_sorted {A} (key : A → Z) l :
  StronglySorted (λ a b, key a ≤ key b) (sort_by key l).
Proof.
  induction l as [|x l IH]; simpl; [constructor|].
  apply insert_by_sorted. exact IH.
Qed.

(** C5, as amended.  The intervals are put in order of [start] (a
rearrangement of the recorded ones); the count is the number of positions
of that order whose interval finishes before some interval at an earlier
position, each such position counted once.  For A(0,10), B(5,20),
C(15,18) the count is 1. *)
Theorem overlapping_counts_outlasted (ivs : list Interval) :
  sort_by start ivs ≡ₚ ivs ∧
  StronglySorted (λ a b, start a ≤ start b) (sort_by start ivs) ∧
  (∃ l : list nat,
      NoDup l ∧
      (∀ i, i ∈ l ↔ outlasted (sort_by start ivs) i) ∧
      overlapping ivs = length l) ∧
  overlapping [{| start := 0; finish := 10 |};
               {| start := 5; finish := 20 |};
               {| start := 15; finish := 18 |}] = 1%nat.
Proof.
  split; [apply sort_by_perm|]. split; [apply sort_by_sorted|].
  split; [|done].
  set (s := sort_by start ivs).
  exists (filter (λ i, scan_before s i = true) (seq 0 (length s))).
  split; [apply NoDup_filter, NoDup_seq|]. split.
  - intros i. rewrite list_elem_of_filter, scan_before_outlasted.
    split; [intros [H _]; exact H|]. intros H. split; [exact H|].
    destruct H as (a & _ & _ & Ha & _). apply elem_of_seq.
    apply lookup_lt_Some in Ha. lia.
  - unfold overlapping. fold s.
    exact (count_foldl (scan_before s) (seq 0 (length s)) 0).
Qed.

(** Three writes started at 0, 5 and 10 that finish in the opposite
order, pushed as they finish.  In order of start each is outlasted by all
before it: three pairs, but two outlasted intervals. *)
Lemma overlapping_is_not_the_pair_count :
  let ivs := [{| start := 10; finish := 12 |};
              {| start := 5; finish := 20 |};
              {| start := 0; finish := 30 |}] in
  sort_by start ivs = [{| start := 0; finish := 30 |};
                       {| start := 5; finish := 20 |};
                       {| start := 10; finish := 12 |}] ∧
  later_finishing_pairs (sort_by start ivs) = 3%nat ∧
  overlapping ivs = 2%nat ∧
  overlapping ivs ≠ later_finishing_pairs (sort_by start ivs).
Proof.
  assert (E : later_finishing_pairs
                (sort_by start
                   [{| start := 10; finish := 12 |};
                    {| start := 5; finish := 20 |};
                    {| start := 0; finish := 30 |}]) = 3%nat)
    by (vm_compute; reflexivity).
  cbv zeta. rewrite E. repeat split; try done.
Qed.

End Overlap.

(** ** The lost updates *)

Section Lost.
Import Cassie Report.

Lemma elem_of_between prev current x :
  x ∈ between prev current ↔ prev < x < current.
Proof.
  unfold between. rewrite list_elem_of_In, in_map_iff. split.
  - intros (k & <- & Hk). apply in_seq in Hk. lia.
  - intros H. exists (Z.to_nat (x - prev - 1)). split; [lia|].
    apply in_seq. lia.
Qed.

Lemma neighbours_gaps s :
  neighbours (λ current prev,
                if 1 <? current - prev then between prev current else []) s
  = gaps s.
Proof.
  induction s as [|a s IH]; [done|].
  destruct s as [|b s]; [done|]. simpl in *. rewrite IH. done.
Qed.

Lemma lostUpdates_gaps l :
  lostUpdates l =
  (if decide (sort_by id l !! 0%nat = Some 0) then [] else [0]) ++
  gaps (sort_by id l).
Proof.
  unfold lostUpdates. cbv zeta. f_equal.
  rewrite <- neighbours_gaps, <- flat_map_neighbours. done.
Qed.

Lemma gaps_spec s :
  StronglySorted Z.le s →
  ∀ x, x ∈ gaps s ↔ ((x ∉ s) ∧ ∃ a b, a ∈ s ∧ b ∈ s ∧ a < x < b).
Proof.
  induction 1 as [|a s Hs IH Ha]; intros x.
  - simpl. split; [intros H; apply elem_of_nil in H; done|].
    intros (_ & a & _ & H & _). apply elem_of_nil in H. done.
  - destruct s as [|b s].
    { simpl. split; [intros H; apply elem_of_nil in H; done|].
      intros (_ & a' & b' & H1 & H2 & H3).
      apply list_elem_of_singleton in H1, H2. lia. }
    change (gaps (a :: b :: s))
      with ((if 1 <? b - a then between a b else []) ++ gaps (b :: s)).
    rewrite elem_of_app, IH.
    assert (Hab : a ≤ b) by (apply Forall_cons in Ha as [? _]; done).
    assert (Hlow : ∀ y, y ∈ b :: s → b ≤ y).
    { intros y Hy. apply elem_of_cons in Hy as [->|Hy]; [lia|].
      apply StronglySorted_inv in Hs as [_ Hb].
      rewrite Forall_forall in Hb. apply Hb. done. }
    assert (Hbet : x ∈ (if 1 <? b - a then between a b else [])
                   ↔ a < x < b).
    { destruct (Z.ltb_spec 1 (b - a)).
      - apply elem_of_between.
      - split; [intros H'; apply elem_of_nil in H'; done | lia]. }
    rewrite Hbet. split.
    + intros [H|(Hx & a' & b' & Ha' & Hb' & H)].
      * split.
        -- intros Hx. apply elem_of_cons in Hx as [->|Hx]; [lia|].
           apply Hlow in Hx. lia.
        -- exists a, b. split; [left|]. split; [right; left | done].
      * split.
        -- intros Hx'. apply elem_of_cons in Hx' as [->|Hx']; [|done].
           apply Hlow in Ha'. lia.
        -- exists a', b'. split; [right; done|]. split; [right; done|done].
    + intros (Hx & a' & b' & Ha' & Hb' & H).
      assert (Hxa : x ≠ a) by (intros ->; apply Hx; left).
      assert (Hxb : x ≠ b) by (intros ->; apply Hx; right; left).
      assert (Hx' : x ∉ b :: s) by (intros H'; apply Hx; right; done).
      assert (Hal : ∀ y, y ∈ a :: b :: s → a ≤ y).
      { intros y Hy. apply elem_of_cons in Hy as [->|Hy]; [lia|].
        apply Hlow in Hy. lia. }
      destruct (Z.lt_ge_cases x b) as [Hlt|Hge].
      * left. apply Hal in Ha'. lia.
      * right. split; [done|]. exists b, b'. split; [left|].
        split; [|lia].
        apply elem_of_cons in Hb' as [->|Hb']; [|done]. lia.
Qed.

(** What the detection does flag.  When the smallest written value is 0
or 1, the writes lie in [0, N) and [N - 1] was written, the flagged values
are the integers of [0, N) that were not written. *)
Lemma lostUpdates_dense (l : list Z) (N : Z) :
  0 ∈ l ∨ 1 ∈ l → (∀ v, v ∈ l → 0 ≤ v < N) → N - 1 ∈ l →
  ∀ x, x ∈ lostUpdates l ↔ (0 ≤ x < N ∧ (x ∉ l)).
Proof.
  intros Hmin Hrange Hmax x.
  rewrite lostUpdates_gaps.
  set (s := sort_by id l).
  assert (Hperm : s ≡ₚ l) by apply sort_by_perm.
  assert (Hsorted : StronglySorted Z.le s) by apply (sort_by_sorted id).
  assert (Hin : ∀ y, y ∈ s ↔ y ∈ l) by (intros y; rewrite Hperm; done).
  rewrite elem_of_app, (gaps_spec s Hsorted), Hin.
  assert (Hhead : s !! 0%nat = Some 0 ↔ 0 ∈ l).
  { split.
    - intros H. apply Hin. apply list_elem_of_lookup. exists 0%nat. done.
    - intros H. apply Hin in H. destruct s as [|h t].
      + apply elem_of_nil in H. done.
      + simpl. f_equal.
        assert (h ∈ l) by (apply Hin; left).
        apply StronglySorted_inv in Hsorted as [_ Hh].
        rewrite Forall_forall in Hh.
        apply elem_of_cons in H as [->|H]; [done|].
        apply Hh in H.
        specialize (Hrange h ltac:(done)). lia. }
  destruct (decide (s !! 0%nat = Some 0)) as [E|E].
  - apply Hhead in E. split.
    + intros [H|(Hx & a & b & Ha & Hb & H)];
        [apply elem_of_nil in H; done|].
      apply Hin, Hrange in Ha. apply Hin, Hrange in Hb.
      split; [lia | done].
    + intros [Hx Hn]. right. split; [done|]. exists 0, (N - 1).
      split; [apply Hin; done|]. split; [apply Hin; done|].
      assert (x ≠ 0) by (intros ->; done).
      assert (x ≠ N - 1) by (intros ->; done). lia.
  - assert (H0 : 0 ∉ l) by (intros H; apply E, Hhead; done).
    destruct Hmin as [Hmin|Hmin]; [done|]. split.
    + intros [H|(Hx & a & b & Ha & Hb & H)].
      * apply list_elem_of_singleton in H. subst x.
        specialize (Hrange 1 Hmin). split; [lia | done].
      * apply Hin, Hrange in Ha. apply Hin, Hrange in Hb.
        split; [lia | done].
    + intros [Hx Hn]. destruct (decide (x = 0)) as [->|Hx0].
      * left. left.
      * right. split; [done|]. exists 1, (N - 1).
        split; [apply Hin; done|]. split; [apply Hin; done|].
        assert (x ≠ 1) by (intros ->; done).
        assert (x ≠ N - 1) by (intros ->; done). lia.
Qed.

(** C4, at the failing input.  For the writes 2, 3 (drawn from [0, 4),
largest 3) only 0 is flagged: 1 is missing from the log and is not
flagged.  For the writes 0, 1, 3, 4 exactly 2 is flagged. *)
Theorem lostUpdates_leading_gap :
  lostUpdates [2; 3] = [0] ∧
  (1 ∉ [2; 3]) ∧ 0 ≤ 1 < 4 ∧ (1 ∉ lostUpdates [2; 3]) ∧
  lostUpdates [0; 1; 3; 4] = [2].
Proof.
  assert (E : lostUpdates [2; 3] = [0]) by (vm_compute; reflexivity).
  split; [exact E|]. split.
  { intros H. apply elem_of_cons in H as [H|H]; [done|].
    apply list_elem_of_singleton in H. done. }
  split; [lia|]. split.
  { rewrite E. intros H. apply list_elem_of_singleton in H. done. }
  vm_compute. reflexivity.
Qed.

End Lost.

(** ** The classification loop *)

Section Classification.
Import Cassie Report.

(** An iteration that does not raise moves the request cursor by one. *)
Lemma body_advances c lost s s' :
  body c lost s = Some s' → reqPointer s' = S (reqPointer s).
Proof.
  unfold body. destruct (requests c !! reqPointer s) as [r|]; [|done].
  repeat case_match; intros [= <-]; done.
Qed.

(** The loop is over once the rounds given to it are used up: [length]
rounds are enough. *)
Lemma while_exit fuel : ∀ c lost s s',
  (length (requests c) - reqPointer s ≤ fuel)%nat →
  while fuel c lost s = Some s' →
  (length (requests c) ≤ reqPointer s')%nat.
Proof.
  induction fuel as [|fuel IH]; intros c lost s s' Hf; simpl.
  - destruct (Nat.ltb_spec (reqPointer s) (length (requests c)));
      intros [= <-]; lia.
  - destruct (Nat.ltb_spec (reqPointer s) (length (requests c)));
      [|intros [= <-]; lia].
    destruct (body c lost s) as [s1|] eqn:E; [|done].
    apply IH. rewrite (body_advances _ _ _ _ E). lia.
Qed.

(** Not lost, and the notification at the cursor carries another value:
the line says "wrong value from database" exactly when the request's value
is the database write at the notification cursor, "reordered by gateway"
otherwise, and both cursors move by one. *)
Lemma body_mismatch c lost s r n :
  requests c !! reqPointer s = Some r →
  value r ∉ lost →
  notifications c !! notifPointer s = Some n →
  value r ≠ value n →
  ∃ s' line,
    body c lost s = Some s' ∧
    reqPointer s' = S (reqPointer s) ∧
    notifPointer s' = S (notifPointer s) ∧
    str s' = str s ++ [line] ∧
    (note line = WRONG_VALUE_FROM_DATABASE ↔
     dbWrites c !! notifPointer s = Some (value r)) ∧
    (note line = REORDERED_BY_GATEWAY ↔
     dbWrites c !! notifPointer s ≠ Some (value r)).
Proof.
  intros Hr Hl Hn Hv. unfold body. rewrite Hr, Hn.
  rewrite (bool_decide_eq_false_2 _ Hl), (bool_decide_eq_true_2 _ Hv).
  destruct (decide (dbWrites c !! notifPointer s = Some (value r)))
    as [E|E].
  - rewrite (bool_decide_eq_true_2 _ E). eexists _, _.
    split; [reflexivity|]. simpl. repeat split; try done.
  - rewrite (bool_decide_eq_false_2 _ E). eexists _, _.
    split; [reflexivity|]. simpl. repeat split; try done.
Qed.

(** Flagged lost, with a notification at the cursor: only the request
cursor moves. *)
Lemma body_lost c lost s r n :
  requests c !! reqPointer s = Some r →
  value r ∈ lost →
  notifications c !! notifPointer s = Some n →
  ∃ s' line,
    body c lost s = Some s' ∧
    reqPointer s' = S (reqPointer s) ∧
    notifPointer s' = notifPointer s ∧
    str s' = str s ++ [line] ∧ note line = FLAGGED_AS_LOST.
Proof.
  intros Hr Hl Hn. unfold body. rewrite Hr, Hn.
  rewrite (bool_decide_eq_true_2 _ Hl). eexists _, _.
  split; [reflexivity|]. done.
Qed.

(** Flagged lost, with the notification cursor past the last
notification: the iteration raises on [notification.time]. *)
Lemma body_lost_raises c lost s r :
  requests c !! reqPointer s = Some r →
  value r ∈ lost →
  notifications c !! notifPointer s = None →
  body c lost s = None.
Proof.
  intros Hr Hl Hn. unfold body. rewrite Hr, Hn.
  rewrite (bool_decide_eq_true_2 _ Hl). done.
Qed.

(** C6, at the failing input.  A single request, value 0, that was never
written: 0 is flagged lost, there is no notification at the cursor, and
the iteration raises on [notification.time] instead of moving the request
cursor; no report is produced.  The same happens at the third of the
requests 0, 2, 1 when only 0 and 2 were written and notified: the first
two iterations consume both notifications, and the lost request 1 finds
none. *)
Theorem lost_request_without_notification_raises :
  lostUpdates (dbWrites one_failed_request) = [0] ∧
  body one_failed_request [0] scan0 = None ∧
  classify one_failed_request = None ∧
  report one_failed_request = None ∧
  lostUpdates (dbWrites lost_request_last) = [1] ∧
  while 2 lost_request_last [1] scan0 =
    Some {| reqPointer := 2; notifPointer := 2;
            str := [{| number := 0; sent := 0; seen := Some 0;
                       ms := Some 5; note := plain |};
                    {| number := 1; sent := 2; seen := Some 2;
                       ms := Some 5; note := plain |}];
            wrong := 0; dbReadWrongValue := 0;
            correctReq := 1; incorrectReq := 1;
            processingTime := [5; 5] |} ∧
  classify lost_request_last = None ∧
  report lost_request_last = None.
Proof.
  assert (E0 : classify one_failed_request = None)
    by (vm_compute; reflexivity).
  assert (E : classify lost_request_last = None) by (vm_compute; reflexivity).
  split; [vm_compute; reflexivity|].
  split; [vm_compute; reflexivity|].
  split; [exact E0|].
  split; [unfold report; rewrite E0; done|].
  split; [vm_compute; reflexivity|].
  split; [vm_compute; reflexivity|].
  split; [exact E|]. unfold report. rewrite E. done.
Qed.

End Classification.

(** ** Teardown of a socket *)

Section Teardown.
Import Hub.

Lemma removeListener_at_most_once f l :
  at_most_once f l → removeListener f l = [].
Proof.
  intros [->| ->]; [done|].
  unfold removeListener. simpl. destruct (decide (f = f)); done.
Qed.

Lemma remove_first_length f l :
  (length (remove_first f l) + (if bool_decide (f ∈ l) then 1 else 0))%nat
  = length l.
Proof.
  induction l as [|g l IH]; [done|]. cbn [remove_first].
  destruct (decide (g = f)) as [->|Hne].
  - rewrite bool_decide_eq_true_2; [simpl; lia | left].
  - cbn [length]. rewrite <- IH. destruct (decide (f ∈ l)) as [Hin|Hin].
    + rewrite !bool_decide_eq_true_2; [lia | done | right; done].
    + rewrite !bool_decide_eq_false_2; [lia | done |].
      intros H. apply elem_of_cons in H as [H|H]; [congruence | done].
Qed.

(** [taken] records a removal exactly when [removeListener] shortens the
list. *)
Lemma removeListener_taken p f l :
  (length (removeListener f l) + length (taken p f l))%nat = length l.
Proof.
  unfold removeListener, taken. rewrite length_reverse.
  rewrite <- (length_reverse l), <- (remove_first_length f (reverse l)).
  destruct (decide (f ∈ l)) as [Hin|Hin].
  - rewrite !bool_decide_eq_true_2; [done | |done].
    apply elem_of_reverse. done.
  - rewrite !bool_decide_eq_false_2; [done | |done].
    rewrite elem_of_reverse. done.
Qed.

Lemma cleanup_globals s :
  globals_once s →
  thing_added (cleanup s).1 = [] ∧ property_changed (cleanup s).1 = [] ∧
  action_status (cleanup s).1 = [].
Proof.
  intros (H1 & H2 & H3). unfold cleanup.
  destruct (run_cleanups _ _) as [ts log]. simpl.
  rewrite (removeListener_at_most_once _ _ H1),
          (removeListener_at_most_once _ _ H2),
          (removeListener_at_most_once _ _ H3). done.
Qed.

Lemma globals_once_handle e s : globals_once s → globals_once (handle e s).
Proof.
  intros H. destruct e as [id|id|names|]; simpl.
  - exact H.
  - unfold removed. destruct (thingCleanups s !! id); exact H.
  - exact H.
  - destruct (cleanup_globals s H) as (E1 & E2 & E3).
    unfold globals_once. rewrite E1, E2, E3. repeat split; left; done.
Qed.

Lemma globals_once_run evs : ∀ s, globals_once s → globals_once (run evs s).
Proof.
  induction evs as [|e evs IH]; intros s H; [exact H|].
  simpl. apply IH, globals_once_handle, H.
Qed.

Lemma globals_once_open thingId : globals_once (open thingId).
Proof.
  unfold globals_once, open. simpl. split.
  - destruct thingId; [left | right]; done.
  - split; right; done.
Qed.

(** A removal differs from each of a few others by its constructors. *)
Ltac not_among :=
  let H := fresh "H" in
  intros H;
  repeat (apply elem_of_cons in H as [H|H]; [discriminate H|]);
  apply elem_of_nil in H; exact H.

Lemma thingCleanup_log id k ts :
  NoDup (thingCleanup id k ts).2 ∧
  Forall (λ r, at_thing r = Some id) (thingCleanup id k ts).2.
Proof.
  unfold thingCleanup, taken. cbn [snd].
  repeat case_bool_decide; cbn [app]; split;
    repeat (first [ apply NoDup_nil_2 | apply Forall_nil_2
                  | apply Forall_cons_2; [reflexivity|]
                  | apply NoDup_cons_2; [not_among|] ]).
Qed.

Lemma run_cleanups_log l : ∀ ts,
  NoDup l.*1 →
  NoDup (run_cleanups l ts).2 ∧
  Forall (λ r, ∃ id, at_thing r = Some id ∧ id ∈ l.*1) (run_cleanups l ts).2.
Proof.
  induction l as [|[id k] l IH]; intros ts Hnd.
  - simpl. split; constructor.
  - rewrite fmap_cons in Hnd |- *. cbn [fst] in Hnd |- *.
    apply NoDup_cons in Hnd as [Hid Hnd]. cbn [run_cleanups].
    destruct (thingCleanup_log id k ts) as [N1 F1].
    destruct (thingCleanup id k ts) as [ts1 log1]. cbn [snd] in N1, F1.
    destruct (IH ts1 Hnd) as [N2 F2].
    destruct (run_cleanups l ts1) as [ts2 log2]. cbn [snd] in N2, F2 |- *.
    split.
    + apply NoDup_app. split; [done|]. split; [|done].
      intros r Hr1 Hr2. rewrite Forall_forall in F1, F2.
      destruct (F2 r Hr2) as (id' & E & Hin).
      rewrite (F1 r Hr1) in E. injection E as <-. done.
    + apply Forall_app. split.
      * eapply Forall_impl; [exact F1|]. cbn beta. intros r E.
        exists id. split; [done | left].
      * eapply Forall_impl; [exact F2|]. cbn beta.
        intros r (id' & E & Hin).
        exists id'. split; [done | right; done].
Qed.

Lemma taken_elem p f l r : r ∈ taken p f l → r = unregistered p f.
Proof.
  unfold taken. destruct (bool_decide (f ∈ l)); intros H.
  - apply list_elem_of_singleton in H. exact H.
  - apply elem_of_nil in H. done.
Qed.

Lemma taken_nodup p f l : NoDup (taken p f l).
Proof.
  unfold taken.
  destruct (bool_decide (f ∈ l)); [apply NoDup_singleton | apply NoDup_nil_2].
Qed.

Lemma cleanup_log_nodup s : NoDup (cleanup s).2.
Proof.
  unfold cleanup.
  destruct (run_cleanups_log (map_to_list (thingCleanups s)) (things s)
              (NoDup_fst_map_to_list _)) as [N F].
  destruct (run_cleanups _ _) as [ts log]. cbn [snd] in *.
  rewrite Forall_forall in F.
  assert (G : ∀ r, r ∈ log → at_thing r ≠ None)
    by (intros r Hr; destruct (F r Hr) as (id & -> & _); done).
  set (hb := if heartbeat s then [cleared_heartbeat] else []).
  assert (Hhb : ∀ r, r ∈ hb → r = cleared_heartbeat).
  { unfold hb. intros r H. destruct (heartbeat s).
    - apply list_elem_of_singleton in H. exact H.
    - apply elem_of_nil in H. done. }
  assert (Nhb : NoDup hb)
    by (unfold hb; destruct (heartbeat s);
        [apply NoDup_singleton | apply NoDup_nil_2]).
  assert (T : ∀ p f l rest,
             unregistered p f ∉ rest → NoDup rest →
             NoDup (taken p f l ++ rest)).
  { intros p f l rest Hn Hrest. apply NoDup_app.
    split; [apply taken_nodup|]. split; [|exact Hrest].
    intros r Hr Hin. apply taken_elem in Hr as ->. done. }
  assert (Tail : ∀ p f, at_thing (unregistered p f) = None →
                        unregistered p f ∉ log ++ hb).
  { intros p f Hp Hin. apply elem_of_app in Hin as [Hin|Hin].
    - apply G in Hin. done.
    - apply Hhb in Hin. discriminate Hin. }
  apply T.
  { intros Hin. apply elem_of_app in Hin as [Hin|Hin];
      [apply taken_elem in Hin; discriminate Hin|].
    apply elem_of_app in Hin as [Hin|Hin];
      [apply taken_elem in Hin; discriminate Hin|].
    revert Hin. apply Tail. reflexivity. }
  apply T.
  { intros Hin. apply elem_of_app in Hin as [Hin|Hin];
      [apply taken_elem in Hin; discriminate Hin|].
    revert Hin. apply Tail. reflexivity. }
  apply T; [apply Tail; reflexivity|].
  apply NoDup_app. split; [exact N|]. split; [|exact Nhb].
  intros r Hr Hin. apply Hhb in Hin. subst r. apply G in Hr.
  apply Hr. reflexivity.
Qed.

(** C9.  For a session reached from the opening of the socket by adding
and removing things, event subscriptions and earlier teardowns, two
teardowns in a row take nothing away twice: the second takes nothing away
at all and leaves the session as the first one left it, with no global
listener of this socket registered, no thing cleanup stored and the
heartbeat timer cleared. *)
Theorem cleanup_twice_removes_once
    (thingId : option string) (evs : list Hub.event) :
  let s := run evs (open thingId) in
  let first := cleanup s in
  let second := cleanup first.1 in
  NoDup (first.2 ++ second.2) ∧
  second.2 = [] ∧
  second.1 = first.1 ∧
  thing_added first.1 = [] ∧ property_changed first.1 = [] ∧
  action_status first.1 = [] ∧ thingCleanups first.1 = ∅ ∧
  heartbeat first.1 = false.
Proof.
  intros s first second.
  assert (Hs : globals_once s)
    by (apply globals_once_run, globals_once_open).
  destruct (cleanup_globals s Hs) as (E1 & E2 & E3). fold first in E1, E2, E3.
  assert (E4 : thingCleanups first.1 = ∅)
    by (unfold first, cleanup; destruct (run_cleanups _ _); done).
  assert (E5 : heartbeat first.1 = false)
    by (unfold first, cleanup; destruct (run_cleanups _ _); done).
  assert (L2 : second.2 = []).
  { unfold second, cleanup. rewrite E1, E2, E3, E4, E5.
    rewrite map_to_list_empty. done. }
  assert (S2 : second.1 = first.1).
  { unfold second, cleanup. rewrite E4, map_to_list_empty. simpl.
    rewrite E1, E2, E3. destruct first.1. simpl in *. subst. done. }
  split; [rewrite L2, app_nil_r; apply cleanup_log_nodup|].
  repeat split; done.
Qed.

(** A socket on all things with one thing added: the first teardown takes
away the three global listeners, the four subscriptions on the thing and
the heartbeat. *)
Example teardown_of_one_thing :
  (cleanup (run [thing "lamp"] (open None))).2 =
  [unregistered Things_THING_ADDED onThingAdded;
   unregistered AddonManager_PROPERTY_CHANGED onPropertyChanged;
   unregistered Actions_ACTION_STATUS onActionStatus;
   unregistered (thing_event "lamp") onEvent;
   unregistered (thing_connected "lamp") (onConnected 0);
   unregistered (thing_removed "lamp") (onRemoved 0);
   unregistered (thing_modified "lamp") (onModified 0);
   cleared_heartbeat].
Proof. vm_compute. reflexivity. Qed.

End Teardown.

(** * Further properties of the code *)

(** ** Strings: tokens and statements *)

Section Strings.
Import Cassie Queries.

Lemma app_cons x a b : String x a +:+ b = String x (a +:+ b).
Proof. reflexivity. Qed.

Lemma app_nil b : "" +:+ b = b.
Proof. reflexivity. Qed.

Lemma app_nil_right (a : string) : a +:+ "" = a.
Proof. induction a as [|x a IH]; [done|]. rewrite app_cons, IH. done. Qed.

Lemma string_app_assoc (a b c : string) : (a +:+ b) +:+ c = a +:+ b +:+ c.
Proof. induction a as [|x a IH]; [done|]. rewrite !app_cons, IH. done. Qed.

Lemma string_app_length (a b : string) :
  String.length (a +:+ b) = (String.length a + String.length b)%nat.
Proof.
  induction a as [|x a IH]; [done|].
  rewrite app_cons. simpl. rewrite IH. done.
Qed.

Lemma substring_all (a : string) : String.substring 0 (String.length a) a = a.
Proof. induction a as [|x a IH]; simpl; [done|]. rewrite IH. done. Qed.

Lemma substring_prefix (a b : string) :
  String.substring 0 (String.length a) (a +:+ b) = a.
Proof.
  induction a as [|x a IH].
  - rewrite app_nil. destruct b; done.
  - rewrite app_cons. simpl. rewrite IH. done.
Qed.

Lemma substring_suffix (a b : string) :
  String.substring (String.length a) (String.length b) (a +:+ b) = b.
Proof.
  induction a as [|x a IH].
  - rewrite app_nil. apply substring_all.
  - rewrite app_cons. simpl. exact IH.
Qed.

Lemma drop_last_app (a b : string) :
  drop_last (String.length b) (a +:+ b) = a.
Proof.
  unfold drop_last. rewrite string_app_length.
  replace (String.length a + String.length b - String.length b)%nat
    with (String.length a) by lia.
  apply substring_prefix.
Qed.

Lemma index0_cons p x s :
  String.index 0 p (String x s) =
  if String.prefix p (String x s) then Some 0%nat
  else match String.index 0 p s with Some n => Some (S n) | None => None end.
Proof. reflexivity. Qed.

Lemma prefix_space x s :
  String.prefix " " (String x s) = if ascii_dec " " x then true else false.
Proof.
  change (String.prefix " " (String x s))
    with (if ascii_dec " " x then String.prefix "" s else false).
  destruct (ascii_dec " " x); [|done]. destruct s; done.
Qed.

(** The first space of [ctx ++ " " ++ rest] is where [ctx] ends, when
[ctx] has none. *)
Lemma index_space (ctx rest : string) :
  String.index 0 " " ctx = None →
  String.index 0 " " (ctx +:+ " " +:+ rest) = Some (String.length ctx).
Proof.
  induction ctx as [|x ctx IH]; intros H.
  - rewrite app_nil, app_cons, app_nil, index0_cons, prefix_space.
    destruct (ascii_dec " " " "); done.
  - rewrite app_cons, index0_cons, prefix_space.
    rewrite index0_cons, prefix_space in H.
    destruct (ascii_dec " " x) as [|Hx]; [discriminate H|].
    destruct (String.index 0 " " ctx) as [i|] eqn:E; [discriminate H|].
    rewrite (IH eq_refl). done.
Qed.

(** X1.  A message made of a context without a space, one space, and a
token gives back the token, whatever the token holds (spaces too). *)
Theorem slice_after_space_token (ctx token : string) :
  String.index 0 " " ctx = None →
  slice_after_space (ctx +:+ " " +:+ token) = token.
Proof.
  intros H. unfold slice_after_space. rewrite (index_space _ _ H).
  rewrite <- string_app_assoc.
  replace (String.length ((ctx +:+ " ") +:+ token) - S (String.length ctx))%nat
    with (String.length token)
    by (rewrite !string_app_length; simpl; lia).
  replace (S (String.length ctx)) with (String.length (ctx +:+ " "))
    by (rewrite string_app_length; simpl; lia).
  apply substring_suffix.
Qed.

Lemma slice_after_space_token_witness :
  slice_after_space ("finished" +:+ " " +:+ "2024 7") = "2024 7"%string.
Proof.
  apply (slice_after_space_token "finished" "2024 7"). reflexivity.
Defined.

(** X2.  [formatId] keeps the length, leaves no dash, changes nothing in
an id without dashes, and so does nothing when applied again. *)
Theorem formatId_dashless (deviceId : string) :
  String.length (formatId deviceId) = String.length deviceId ∧
  dashless (formatId deviceId) ∧
  (dashless deviceId → formatId deviceId = deviceId) ∧
  formatId (formatId deviceId) = formatId deviceId.
Proof.
  assert (L : ∀ s, String.length (formatId s) = String.length s).
  { induction s as [|c s IH]; simpl; [done|]. rewrite IH. done. }
  assert (D : ∀ s, dashless (formatId s)).
  { induction s as [|c s IH]; simpl; [done|]. split; [|exact IH].
    destruct (Ascii.eqb_spec c "-"); [discriminate | done]. }
  assert (F : ∀ s, dashless s → formatId s = s).
  { induction s as [|c s IH]; simpl; [done|]. intros [Hc Hs].
    rewrite (IH Hs). destruct (Ascii.eqb_spec c "-"); done. }
  split; [apply L|]. split; [apply D|]. split; [apply F|].
  apply F, D.
Qed.

Lemma formatId_dashless_witness : formatId "lamp_1" = "lamp_1"%string.
Proof.
  apply (proj1 (proj2 (proj2 (formatId_dashless "lamp_1")))).
  simpl. repeat split; discriminate.
Defined.

Lemma foldl_trailing {A} (piece : A → string) (sep : string) (l : list A) :
  ∀ base,
    foldl (λ acc x, acc +:+ piece x +:+ sep) (base +:+ sep) l =
    (base +:+ joined (λ x, sep +:+ piece x) l) +:+ sep.
Proof.
  induction l as [|x l IH]; intros base.
  - simpl. rewrite app_nil_right. done.
  - cbn [foldl joined foldr].
    rewrite <- (string_app_assoc (base +:+ sep) (piece x) sep).
    rewrite (string_app_assoc base sep (piece x)).
    rewrite (IH (base +:+ sep +:+ piece x)).
    rewrite !string_app_assoc. done.
Qed.

Lemma foldl_pointwise {A B} (f g : B → A → B) (l : list A) :
  (∀ b a, f b a = g b a) → ∀ b, foldl f b l = foldl g b l.
Proof.
  intros H. induction l as [|a l IH]; intros b; simpl; [done|].
  rewrite H. apply IH.
Qed.

Section Joined.
Variable toLowerCase : string → string.

(** X3.  The [CREATE TABLE] statement lists the key column and then each
property as [, "name" type], and closes the list: no comma is left
dangling, also when there is no property at all. *)
Theorem createTable_joined (deviceId : string) (properties : list Property) :
  createTable toLowerCase deviceId properties =
  "CREATE TABLE " +:+ inQuotes deviceId +:+ " ( id text PRIMARY KEY" +:+
  joined (λ p, ", " +:+ inQuotes (toLowerCase (name p)) +:+ " " +:+
               columnType p) properties +:+
  " );".
Proof.
  unfold createTable. cbv zeta.
  set (base := ("CREATE TABLE " +:+ inQuotes deviceId +:+
                " ( id text PRIMARY KEY")%string).
  set (piece := λ p, (" " +:+ inQuotes (toLowerCase (name p)) +:+ " " +:+
                      columnType p)%string).
  rewrite (foldl_pointwise _ (λ acc p, acc +:+ piece p +:+ ","))
    by (intros; unfold piece; rewrite !string_app_assoc; reflexivity).
  replace ("CREATE TABLE " +:+ inQuotes deviceId +:+
           " ( id text PRIMARY KEY,")%string with (base +:+ ",")%string
    by (unfold base; rewrite !string_app_assoc; reflexivity).
  rewrite foldl_trailing.
  rewrite (drop_last_app _ ","). unfold base.
  rewrite !string_app_assoc. reflexivity.
Qed.

(** X4.  The [INSERT] statement names [id] and then every property, and
gives ['state'] and then every printed value, in the same order and with
no separator left at the end, also when there is no property at all. *)
Theorem insertState_joined (deviceId : string) (properties : list Property) :
  insertState toLowerCase deviceId properties =
  "INSERT INTO " +:+ inQuotes deviceId +:+
  "(id" +:+
  joined (λ p, ", " +:+ inQuotes (toLowerCase (name p))) properties +:+
  ") VALUES ('state'" +:+
  joined (λ p, ", " +:+ printed p) properties +:+ ");".
Proof.
  unfold insertState. cbv zeta.
  change "id, "%string with ("id" +:+ ", ")%string.
  change "'state', "%string with ("'state'" +:+ ", ")%string.
  rewrite (foldl_trailing (λ p, inQuotes (toLowerCase (name p))) ", ").
  rewrite (foldl_trailing printed ", ").
  rewrite !(drop_last_app _ ", ").
  rewrite !string_app_assoc. reflexivity.
Qed.

End Joined.

End Strings.

(** ** The streams and counters between two resets *)

Section Streams.
Import Cassie.

Lemma report_frame c sm c' :
  Report.report c = Some (sm, c') →
  c' = set_intervals (Report.sort_by start (intervals c)) c.
Proof.
  unfold Report.report. destruct (Report.classify c); [|done].
  intros [= _ <-]. done.
Qed.

Lemma no_reset_cons e evs :
  no_reset (e :: evs) ↔ e ≠ Trace.reset ∧ no_reset evs.
Proof. unfold no_reset. rewrite Forall_cons. done. Qed.

(** X5.  Between two resets the streams only grow at their end: the
database writes, the requests and the notifications after a trace are
those before it followed by what the trace wrote, requested and notified,
in order, and the notification count went up by the number of property
changes. *)
Theorem streams_append_only (evs : list Trace.event) (c : Cassie.t) :
  no_reset evs →
  dbWrites (Trace.run evs c).1 = dbWrites c ++ written evs ∧
  requests (Trace.run evs c).1 = requests c ++ requested evs ∧
  notifications (Trace.run evs c).1 = notifications c ++ notified evs ∧
  count (Trace.run evs c).1 = (count c + how_many is_propertyChanged evs)%nat.
Proof.
  revert c. induction evs as [|e evs IH]; intros c H.
  - simpl. rewrite !app_nil_r. unfold how_many. simpl. repeat split; lia.
  - apply no_reset_cons in H as [He H]. rewrite run_cons. cbn [fst].
    destruct (IH (Trace.handle e c).1 H) as (E1 & E2 & E3 & E4).
    rewrite E1, E2, E3, E4. clear IH E1 E2 E3 E4.
    assert (K : ∀ c0 : Cassie.t,
               dbWrites c0 = dbWrites c → requests c0 = requests c →
               notifications c0 = notifications c → count c0 = count c →
               written (e :: evs) = written evs →
               requested (e :: evs) = requested evs →
               notified (e :: evs) = notified evs →
               is_propertyChanged e = false →
               dbWrites c0 ++ written evs = dbWrites c ++ written (e :: evs) ∧
               requests c0 ++ requested evs =
                 requests c ++ requested (e :: evs) ∧
               notifications c0 ++ notified evs =
                 notifications c ++ notified (e :: evs) ∧
               (count c0 + how_many is_propertyChanged evs)%nat =
                 (count c + how_many is_propertyChanged (e :: evs))%nat).
    { intros c0 -> -> -> -> -> -> -> Hp. unfold how_many. simpl.
      rewrite Hp. done. }
    destruct e as [v|w reply now|msg now|msg|e| |e| |]; simpl.
    + rewrite <- !app_assoc. unfold how_many. simpl. done.
    + destruct (write_then w (execute reply).1 now c) as [r|] eqn:Er;
        [|apply K; done].
      unfold write_then in Er. destruct (execute reply).1 as [res|]; [|done].
      repeat case_match; injection Er as <-; apply K; done.
    + unfold finishedProcessing. case_match; apply K; done.
    + unfold consistencyError. repeat case_match; apply K; done.
    + rewrite <- !app_assoc. unfold how_many. simpl. done.
    + unfold how_many. simpl. done.
    + rewrite <- !app_assoc. unfold how_many. simpl. done.
    + destruct (Report.report c) as [[sm c']|] eqn:Er; [|apply K; done].
      rewrite (report_frame _ _ _ Er). apply K; done.
    + done.
Qed.

Lemma streams_append_only_witness :
  dbWrites (Trace.run [Trace.write 3; Trace.report; Trace.write 4] init).1 =
  [3; 4].
Proof.
  refine (proj1 (streams_append_only
                   [Trace.write 3; Trace.report; Trace.write 4] init _)).
  repeat constructor; discriminate.
Defined.

Lemma prefix_cons a p b m :
  String.prefix (String a p) (String b m) =
  if ascii_dec a b then String.prefix p m else false.
Proof. reflexivity. Qed.

(** Read one more character of the message off a prefix test that
succeeded. *)
Ltac peel H :=
  match type of H with
  | String.prefix (String _ _) ?m = true =>
    let b := fresh "b" in
    let m' := fresh "m" in
    destruct m as [|b m']; [discriminate H|];
    rewrite prefix_cons in H;
    destruct (ascii_dec _ b) as [<-|]; [|discriminate H]
  end.

(** The three prefixes exclude one another. *)
Lemma prefixes_exclusive msg :
  (String.prefix "Local Detection" msg = true →
   String.prefix "Global detection concurrent writes" msg = false ∧
   String.prefix "Global detection update not persisted" msg = false) ∧
  (String.prefix "Global detection concurrent writes" msg = true →
   String.prefix "Global detection update not persisted" msg = false).
Proof.
  split; intros H.
  - peel H. split; reflexivity.
  - repeat peel H. reflexivity.
Qed.

Lemma how_many_cons test e evs :
  how_many test (e :: evs) =
  ((if test e then 1 else 0) + how_many test evs)%nat.
Proof. unfold how_many. simpl. destruct (test e); done. Qed.

(** X6.  Between two resets each counter counts the events of its kind:
the delayed-request counter the acknowledgments that carry ["DELAY"], and
each error counter the consistency errors whose message starts with its
prefix; a message is counted by at most one of them. *)
Theorem counters_count (evs : list Trace.event) (c : Cassie.t) :
  no_reset evs →
  delayedRequests (Trace.run evs c).1 =
    (delayedRequests c + how_many is_delayed evs)%nat ∧
  localDetectionErrors (Trace.run evs c).1 =
    (localDetectionErrors c +
     how_many (error_with "Local Detection") evs)%nat ∧
  globalDetectionErrors (Trace.run evs c).1 =
    (globalDetectionErrors c +
     how_many (error_with "Global detection concurrent writes") evs)%nat ∧
  notPersistedErrors (Trace.run evs c).1 =
    (notPersistedErrors c +
     how_many (error_with "Global detection update not persisted") evs)%nat.
Proof.
  revert c. induction evs as [|e evs IH]; intros c H.
  - unfold how_many. simpl. repeat split; lia.
  - apply no_reset_cons in H as [He H]. rewrite run_cons. cbn [fst].
    destruct (IH (Trace.handle e c).1 H) as (E1 & E2 & E3 & E4).
    rewrite E1, E2, E3, E4, !how_many_cons. clear IH E1 E2 E3 E4.
    destruct e as [v|w reply now|msg now|msg|e| |e| |]; simpl;
      try (repeat split; lia).
    + destruct reply as [res|]; simpl; [|repeat split; lia].
      unfold write_then. destruct (warnings res) as [ws|]; simpl;
        [|repeat split; lia].
      destruct (decide (ws !! 0%nat = Some "DELAY"%string)) as [E|E].
      * rewrite (bool_decide_eq_true_2 _ E).
        destruct (ws !! 1%nat ≫= _); simpl; repeat split; lia.
      * rewrite (bool_decide_eq_false_2 _ E). simpl. repeat split; lia.
    + unfold finishedProcessing. case_match; simpl; repeat split; lia.
    + destruct (prefixes_exclusive msg) as [X1 X2].
      unfold consistencyError.
      destruct (String.prefix "Local Detection" msg) eqn:P1.
      { destruct (X1 eq_refl) as [-> ->]. simpl. repeat split; lia. }
      destruct (String.prefix "Global detection concurrent writes" msg)
        eqn:P2.
      { rewrite (X2 eq_refl). simpl. repeat split; lia. }
      destruct (String.prefix "Global detection update not persisted" msg);
        simpl; repeat split; lia.
    + destruct (Report.report c) as [[sm c']|] eqn:Er;
        [|simpl; repeat split; lia].
      rewrite (report_frame _ _ _ Er). simpl. repeat split; lia.
    + done.
Qed.

Lemma counters_count_witness :
  notPersistedErrors
    (Trace.run
       [Trace.consistencyError "Global detection update not persisted 12";
        Trace.consistencyError "Local detection 13"] init).1 = 1%nat.
Proof.
  refine (proj2 (proj2 (proj2 (counters_count
    [Trace.consistencyError "Global detection update not persisted 12";
     Trace.consistencyError "Local detection 13"] init _)))).
  repeat constructor; discriminate.
Defined.

(** X8.  Between two resets every fulfilled caller has left exactly one
interval: the interval list grew by as many entries as callers were
fulfilled. *)
Theorem one_interval_per_fulfilled (evs : list Trace.event) (c : Cassie.t) :
  no_reset evs →
  length (intervals (Trace.run evs c).1) =
  (length (intervals c) + length (Trace.run evs c).2)%nat.
Proof.
  revert c. induction evs as [|e evs IH]; intros c H.
  - simpl. lia.
  - apply no_reset_cons in H as [He H]. rewrite run_cons. cbn [fst snd].
    rewrite (IH _ H), length_app. clear IH.
    assert (S : ∀ w now c0, intervals c0 = intervals c →
              length (intervals (settle w now c0).1) =
              (length (intervals c) + length (settle w now c0).2)%nat).
    { intros w now c0 E. simpl. rewrite length_app, E. simpl. done. }
    enough (length (intervals (Trace.handle e c).1) =
            (length (intervals c) + length (Trace.handle e c).2)%nat) by lia.
    destruct e as [v|w reply now|msg now|msg|e| |e| |]; simpl; try lia.
    + destruct (write_then w (execute reply).1 now c) as [r|] eqn:Er;
        [|simpl; lia].
      unfold write_then in Er. destruct (execute reply).1 as [res|]; [|done].
      repeat case_match; injection Er as <-;
        first [apply S; done | simpl; lia].
    + unfold finishedProcessing. case_match; [apply S; done | simpl; lia].
    + unfold consistencyError. repeat case_match; simpl; lia.
    + destruct (Report.report c) as [[sm c']|] eqn:Er; [|simpl; lia].
      rewrite (report_frame _ _ _ Er). simpl.
      rewrite (Permutation_length (sort_by_perm start (intervals c))). lia.
    + done.
Qed.

Lemma one_interval_per_fulfilled_witness :
  (Trace.run
     [Trace.ack {| caller := 1; opened := 5 |} (delayed "7" [] []) 6;
      Trace.ack {| caller := 2; opened := 7 |}
                (Returned {| rows := []; warnings := None |}) 8;
      Trace.finishedProcessing "finished 7" 9;
      Trace.report] init).2 = [2%nat; 1%nat] ∧
  length (intervals
            (Trace.run
               [Trace.ack {| caller := 1; opened := 5 |}
                          (delayed "7" [] []) 6;
                Trace.ack {| caller := 2; opened := 7 |}
                          (Returned {| rows := []; warnings := None |}) 8;
                Trace.finishedProcessing "finished 7" 9;
                Trace.report] init).1) =
  (length (intervals init) +
   length (Trace.run
             [Trace.ack {| caller := 1; opened := 5 |}
                        (delayed "7" [] []) 6;
              Trace.ack {| caller := 2; opened := 7 |}
                        (Returned {| rows := []; warnings := None |}) 8;
              Trace.finishedProcessing "finished 7" 9;
              Trace.report] init).2)%nat.
Proof.
  split; [vm_compute; reflexivity|].
  apply (one_interval_per_fulfilled
           [Trace.ack {| caller := 1; opened := 5 |} (delayed "7" [] []) 6;
            Trace.ack {| caller := 2; opened := 7 |}
                      (Returned {| rows := []; warnings := None |}) 8;
            Trace.finishedProcessing "finished 7" 9;
            Trace.report] init).
  repeat constructor; discriminate.
Defined.

(** A marker for [ts] only comes from a signal for [ts]. *)
Lemma finished_not_added ts e c :
  Trace.signal_for ts e = false → ts ∉ finished c →
  ts ∉ finished (Trace.handle e c).1.
Proof.
  intros Hs Hn.
  destruct e as [v|w reply now|msg now|msg|e| |e| |]; simpl; try done.
  - destruct (write_then w (execute reply).1 now c) as [r|] eqn:Er; [|done].
    unfold write_then in Er. destruct (execute reply).1 as [res|]; [|done].
    destruct (warnings res) as [ws|]; [|injection Er as <-; done].
    destruct (decide (ws !! 0%nat = Some "DELAY"%string));
      [|injection Er as <-; done].
    destruct (ws !! 1%nat) as [t'|]; simpl in Er;
      [|injection Er as <-; done].
    destruct (indexOf t' (finished c)) as [i|] eqn:Ei;
      injection Er as <-; simpl; [|done].
    destruct (indexOf_Some _ _ _ Ei) as (l1 & l2 & El & _ & ->).
    intros H. apply Hn. rewrite El.
    apply elem_of_app in H as [H|H]; apply elem_of_app;
      [left; done | right; right; done].
  - simpl in Hs. apply bool_decide_eq_false in Hs.
    unfold finishedProcessing.
    destruct (pending c !! slice_after_space msg); simpl; [done|].
    intros H. apply elem_of_app in H as [H|H]; [done|].
    apply list_elem_of_singleton in H. congruence.
  - unfold consistencyError. repeat case_match; done.
  - destruct (Report.report c) as [[sm c']|] eqn:Er; [|done].
    rewrite (report_frame _ _ _ Er). done.
Qed.

Lemma finished_not_added_run ts evs : ∀ c,
  Forall (λ e, Trace.delayed_for ts e = false ∧
               Trace.signal_for ts e = false) evs →
  ts ∉ finished c → ts ∉ finished (Trace.run evs c).1.
Proof.
  induction evs as [|e evs IH]; intros c Hall Hn; [done|].
  rewrite run_cons. cbn [fst]. inversion Hall as [|? ? [_ Hs] Hall']; subst.
  apply IH; [done|]. apply finished_not_added; done.
Qed.

(** X9.  When a second delayed acknowledgment carries the token of a
write that is still waiting for its signal, the second write takes the
place of the first in the pending map: the first caller is never
fulfilled, whatever happens afterwards. *)
Theorem overwritten_waiter_never_fulfilled
    (pre mid post : list Trace.event) (w1 w2 : Waiter) (ts : string)
    (more1 more2 : list string) (rs1 rs2 : list (gmap string Z))
    (t1 t2 : Z) :
  NoDup (Trace.acked
           (pre ++ Trace.ack w1 (delayed ts more1 rs1) t1 ::
            mid ++ Trace.ack w2 (delayed ts more2 rs2) t2 :: post)) →
  ts ∉ finished (Trace.run pre init).1 →
  Forall (λ e, Trace.delayed_for ts e = false ∧
               Trace.signal_for ts e = false) mid →
  caller w1 ∉
    (Trace.run (pre ++ Trace.ack w1 (delayed ts more1 rs1) t1 ::
                mid ++ Trace.ack w2 (delayed ts more2 rs2) t2 :: post)
               init).2.
Proof.
  intros Hnd Hfin Hmid.
  set (a1 := Trace.ack w1 (delayed ts more1 rs1) t1) in *.
  set (a2 := Trace.ack w2 (delayed ts more2 rs2) t2) in *.
  set (c0 := (Trace.run pre init).1) in *.
  assert (Hack : ∀ w t more rs c,
             ts ∉ finished c →
             Trace.handle (Trace.ack w (delayed ts more rs) t) c =
             (pendingExecution ts w
                (set_delayedRequests (S (delayedRequests c)) c), [])).
  { intros w t more rs c Hc. simpl. unfold write_then. simpl.
    destruct (decide (Some "DELAY"%string = Some "DELAY"%string)); [|done].
    simpl. apply indexOf_None in Hc. rewrite Hc. done. }
  set (c1 := (Trace.handle a1 c0).1).
  set (c2 := (Trace.run mid c1).1).
  assert (E1 : Trace.handle a1 c0 = (c1, []))
    by (unfold c1, a1; rewrite (Hack _ _ _ _ _ Hfin); done).
  assert (Hp2 : pending c2 !! ts = Some w1).
  { unfold c2. rewrite pending_kept_run by exact Hmid.
    unfold c1, a1. rewrite (Hack _ _ _ _ _ Hfin). simpl.
    apply lookup_insert_eq. }
  assert (Hf2 : ts ∉ finished c2).
  { unfold c2. apply finished_not_added_run; [exact Hmid|].
    unfold c1, a1. rewrite (Hack _ _ _ _ _ Hfin). exact Hfin. }
  set (c3 := (Trace.handle a2 c2).1).
  assert (E3 : Trace.handle a2 c2 = (c3, []))
    by (unfold c3, a2; rewrite (Hack _ _ _ _ _ Hf2); done).
  (* the state before the second acknowledgment is linked *)
  assert (Hnd' : NoDup (Trace.acked (pre ++ a1 :: mid))).
  { replace (pre ++ a1 :: mid ++ a2 :: post)
      with ((pre ++ a1 :: mid) ++ a2 :: post) in Hnd
      by (rewrite <- app_assoc; done).
    rewrite acked_app in Hnd. apply NoDup_app in Hnd as [Hnd _]. done. }
  assert (L := linked_run _ [] init [] Hnd' linked_init).
  simpl in L. rewrite run_app, run_cons in L. cbn [fst snd] in L.
  fold c0 in L. rewrite E1 in L. cbn [fst snd] in L. fold c1 c2 in L.
  destruct L as [_ _ _ Hwait Honce].
  assert (Hbefore : caller w1 ∉
            (Trace.run pre init).2 ++ [] ++ (Trace.run mid c1).2).
  { apply Hwait. exists ts, w1. done. }
  (* after it the first caller is parked nowhere *)
  assert (Hw12 : caller w1 ≠ caller w2).
  { intros E. rewrite acked_app, acked_cons, acked_app, acked_cons in Hnd.
    simpl in Hnd. apply NoDup_app in Hnd as (_ & _ & Hnd).
    apply NoDup_cons in Hnd as [Hnd _]. apply Hnd.
    apply elem_of_app. right. rewrite E. left. }
  assert (Hnp : ¬ parked (caller w1) c3).
  { intros (k & w & Hk & Hc). unfold c3, a2 in Hk.
    rewrite (Hack _ _ _ _ _ Hf2) in Hk. simpl in Hk.
    destruct (decide (ts = k)) as [<-|Hne].
    - rewrite lookup_insert_eq in Hk. injection Hk as <-. congruence.
    - rewrite lookup_insert_ne in Hk by done.
      apply Hne. exact (Honce _ _ _ _ Hp2 Hk (eq_sym Hc)). }
  assert (Hna : caller w1 ∉ Trace.acked post).
  { rewrite acked_app, acked_cons, acked_app, acked_cons in Hnd.
    simpl in Hnd. apply NoDup_app in Hnd as (_ & _ & Hnd).
    apply NoDup_cons in Hnd as [Hnd _]. intros H. apply Hnd.
    apply elem_of_app. right. right. done. }
  pose proof (never_fulfilled _ _ _ Hna Hnp) as Hafter.
  rewrite run_app, run_cons. cbn [fst snd]. fold c0. rewrite E1.
  cbn [fst snd]. rewrite run_app, run_cons. cbn [fst snd]. fold c1 c2.
  rewrite E3. cbn [fst snd].
  intros H. rewrite !elem_of_app in H. rewrite !elem_of_app in Hbefore.
  destruct H as [H|[H|[H|[H|H]]]]; try (apply elem_of_nil in H; done).
  - apply Hbefore. left. done.
  - apply Hbefore. right. right. done.
  - done.
Qed.

Lemma overwritten_waiter_never_fulfilled_witness :
  caller {| caller := 1; opened := 5 |} ∉
    (Trace.run
       ([] ++ Trace.ack {| caller := 1; opened := 5 |} (delayed "7" [] []) 6 ::
        [] ++ Trace.ack {| caller := 2; opened := 7 |} (delayed "7" [] []) 8 ::
        [Trace.finishedProcessing "finished 7" 9;
         Trace.finishedProcessing "finished 7" 10]) init).2.
Proof.
  apply (overwritten_waiter_never_fulfilled [] [] _ _ _ "7" [] [] [] [] 6 8).
  - simpl. apply NoDup_cons. split; [|apply NoDup_singleton].
    intros H. apply list_elem_of_singleton in H. discriminate.
  - simpl. apply not_elem_of_nil.
  - apply Forall_nil_2.
Defined.

(** X10.  When the clock never runs backwards and no acknowledgment is
stamped before its [write] was called, every interval recorded since the
start finishes no earlier than it starts. *)
Theorem intervals_finish_after_start (t : Z) (evs : list Trace.event) :
  timed t evs →
  Forall (λ i, start i ≤ finish i) (intervals (Trace.run evs init).1).
Proof.
  assert (G : ∀ evs t c,
             Forall (λ i, start i ≤ finish i) (intervals c) →
             (∀ k w, pending c !! k = Some w → opened w ≤ t) →
             timed t evs →
             Forall (λ i, start i ≤ finish i)
                    (intervals (Trace.run evs c).1)).
  { clear. induction evs as [|e evs IH]; intros t c Hi Hp Ht; [done|].
    rewrite run_cons. cbn [fst].
    assert (St : ∀ w now c0, intervals c0 = intervals c → opened w ≤ now →
               Forall (λ i, start i ≤ finish i)
                      (intervals (settle w now c0).1)).
    { intros w now c0 E Hw. simpl. rewrite E. apply Forall_app.
      split; [done|]. apply Forall_singleton. done. }
    destruct e as [v|w reply now|msg now|msg|e| |e| |]; simpl in Ht |- *;
      try (apply (IH t); done).
    - destruct Ht as (Hw & Hnow & Ht).
      assert (Hp' : ∀ k w', pending c !! k = Some w' → opened w' ≤ now)
        by (intros k w' Hk; specialize (Hp k w' Hk); lia).
      destruct (write_then w (execute reply).1 now c) as [r|] eqn:Er;
        [|apply (IH now); done].
      unfold write_then in Er. destruct (execute reply).1 as [res|]; [|done].
      destruct (warnings res) as [ws|];
        [|injection Er as <-; apply (IH now); [apply St; done | done..]].
      destruct (decide (ws !! 0%nat = Some "DELAY"%string));
        [|injection Er as <-; apply (IH now); [apply St; done | done..]].
      destruct (ws !! 1%nat ≫= _); injection Er as <-.
      + apply (IH now); [apply St; done | done..].
      + apply (IH now); [done| |done]. simpl. intros k w' Hk.
        destruct (decide (key_of (ws !! 1%nat) = k)) as [<-|Hne].
        * rewrite lookup_insert_eq in Hk. injection Hk as <-. done.
        * rewrite lookup_insert_ne in Hk by done. eauto.
    - destruct Ht as (Hnow & Ht). unfold finishedProcessing.
      destruct (pending c !! slice_after_space msg) as [d|] eqn:Ed.
      + apply (IH now); [| |done].
        * apply St; [done|]. specialize (Hp _ _ Ed). lia.
        * simpl. intros k w' Hk. apply lookup_delete_Some in Hk as [_ Hk].
          specialize (Hp _ _ Hk). lia.
      + apply (IH now); [done| |done]. simpl. intros k w' Hk.
        specialize (Hp _ _ Hk). lia.
    - apply (IH t); [| |done]; unfold consistencyError;
        repeat case_match; done.
    - apply (IH t); [| |done].
      + destruct (Report.report c) as [[sm c']|] eqn:Er; [|done].
        rewrite (report_frame _ _ _ Er). simpl.
        rewrite (sort_by_perm start (intervals c)). done.
      + destruct (Report.report c) as [[sm c']|] eqn:Er; [|done].
        rewrite (report_frame _ _ _ Er). done. }
  intros Ht. apply (G evs t init); [apply Forall_nil_2| |done].
  intros k w H. simpl in H. rewrite lookup_empty in H. done.
Qed.

Lemma intervals_finish_after_start_witness :
  Forall (λ i, start i ≤ finish i)
    (intervals
       (Trace.run
          [Trace.ack {| caller := 1; opened := 5 |} (delayed "7" [] []) 6;
           Trace.finishedProcessing "finished 7" 9] init).1).
Proof.
  apply (intervals_finish_after_start 0). simpl. lia.
Defined.

End Streams.

(** ** What the lost-update pass flags *)

Section Flagged.
Import Cassie Report.

Lemma sorted_head_zero (l : list Z) :
  (∀ v, v ∈ l → 0 ≤ v) → 0 ∈ l → sort_by id l !! 0%nat = Some 0.
Proof.
  intros Hpos H0.
  assert (Hperm : sort_by id l ≡ₚ l) by apply sort_by_perm.
  assert (Hsorted : StronglySorted Z.le (sort_by id l))
    by apply (sort_by_sorted id).
  rewrite <- Hperm in H0.
  destruct (sort_by id l) as [|h t] eqn:E.
  - apply elem_of_nil in H0. done.
  - simpl. f_equal.
    assert (Hh : 0 ≤ h) by (apply Hpos; rewrite <- Hperm; left).
    apply StronglySorted_inv in Hsorted as [_ Hle].
    rewrite Forall_forall in Hle.
    apply elem_of_cons in H0 as [->|H0]; [done|].
    specialize (Hle _ H0). lia.
Qed.

Lemma lostUpdates_sound (l : list Z) :
  (∀ v, v ∈ l → 0 ≤ v) →
  ∀ x, x ∈ lostUpdates l →
       (x ∉ l) ∧ (x = 0 ∨ ∃ a b, a ∈ l ∧ b ∈ l ∧ a < x < b).
Proof.
  intros Hpos x. rewrite lostUpdates_gaps.
  assert (Hperm : sort_by id l ≡ₚ l) by apply sort_by_perm.
  assert (Hsorted : StronglySorted Z.le (sort_by id l))
    by apply (sort_by_sorted id).
  rewrite elem_of_app, (gaps_spec _ Hsorted).
  intros [H|(Hn & a & b & Ha & Hb & Hab)].
  - destruct (decide (sort_by id l !! 0%nat = Some 0)) as [E|E];
      [apply elem_of_nil in H; done|].
    apply list_elem_of_singleton in H. subst x. split; [|left; done].
    intros H0. apply E. apply sorted_head_zero; done.
  - rewrite Hperm in Hn, Ha, Hb. split; [done|]. right. eauto.
Qed.

(** X16.  When no written value is negative, the pass never flags a value
that was written, and never a negative one: what it flags is 0 or lies
strictly between two written values. *)
Theorem lostUpdates_only_missing (l : list Z) :
  (∀ v, v ∈ l → 0 ≤ v) →
  ∀ x, x ∈ lostUpdates l →
       (x ∉ l) ∧ 0 ≤ x ∧ (x = 0 ∨ ∃ a b, a ∈ l ∧ b ∈ l ∧ a < x < b).
Proof.
  intros Hpos x Hx.
  destruct (lostUpdates_sound l Hpos x Hx) as [Hn Hw].
  split; [done|]. split; [|done].
  destruct Hw as [->|(a & b & Ha & _ & Hab)]; [done|].
  specialize (Hpos a Ha). lia.
Qed.

Lemma lostUpdates_only_missing_witness : 2 ∉ [0; 1; 3; 4].
Proof.
  refine (proj1 (lostUpdates_only_missing [0; 1; 3; 4] _ 2 _)).
  - intros v Hv. repeat (apply elem_of_cons in Hv as [->|Hv]; [lia|]).
    apply elem_of_nil in Hv. done.
  - vm_compute. left.
Defined.

End Flagged.

(** ** The report as a whole *)

Section Accounting.
Import Cassie Report.

Lemma accounted_scan0 c : accounted c scan0.
Proof.
  split; simpl; try lia. intros i line H. rewrite lookup_nil in H. done.
Qed.

Lemma accounted_line (c : Cassie.t) (s : Scan) (r : Entry) (line : Line) :
  accounted c s → requests c !! reqPointer s = Some r →
  number line = reqPointer s → sent line = value r →
  ∀ i l, (str s ++ [line]) !! i = Some l →
         number l = i ∧ ∃ r', requests c !! i = Some r' ∧ sent l = value r'.
Proof.
  intros A Hr Hn Hs i l Hl.
  apply lookup_app_Some in Hl as [Hl|[Hge Hl]].
  - exact (lines_numbered c s A i l Hl).
  - rewrite (lines_so_far c s A) in Hge, Hl.
    destruct (i - reqPointer s)%nat as [|j] eqn:E; [|done].
    injection Hl as <-. assert (i = reqPointer s) as -> by lia.
    split; [done|]. exists r. done.
Qed.

Lemma body_accounted c lost s s' :
  accounted c s → body c lost s = Some s' → accounted c s'.
Proof.
  intros A. unfold body.
  destruct (requests c !! reqPointer s) as [r|] eqn:Er; [|done].
  pose proof (lookup_lt_Some _ _ _ Er) as Hlt.
  pose proof (accounted_line c s r) as Hline.
  destruct A as [A1 A2 A3 A4 A5 A6 A7 A8].
  assert (A : accounted c s) by (split; done).
  destruct (notifications c !! notifPointer s) as [n|];
    repeat case_match; intros E; try discriminate E; injection E as <-;
    (split; simpl; rewrite ?length_app; simpl; try lia;
     apply Hline; done).
Qed.

Lemma while_accounted fuel : ∀ c lost s s',
  accounted c s → while fuel c lost s = Some s' → accounted c s'.
Proof.
  induction fuel as [|fuel IH]; intros c lost s s' A; simpl.
  - destruct (reqPointer s <? length (requests c))%nat; intros [= <-]; done.
  - destruct (reqPointer s <? length (requests c))%nat;
      [|intros [= <-]; done].
    destruct (body c lost s) as [s1|] eqn:E; [|done].
    apply IH. eapply body_accounted; eauto.
Qed.

Lemma classify_exit (c : Cassie.t) (s : Scan) :
  classify c = Some s → accounted c s ∧ reqPointer s = length (requests c).
Proof.
  intros H. unfold classify in H.
  pose proof (while_accounted _ _ _ _ _ (accounted_scan0 c) H) as A.
  assert (Hex : (length (requests c) ≤ reqPointer s)%nat).
  { eapply while_exit; [|exact H]. simpl. lia. }
  split; [exact A|]. pose proof (within_requests c s A). lia.
Qed.

(** X13.  A report that is produced has one line per request, numbered in
the order of the requests and carrying the request's value; the requests
counted correct and incorrect add up to all requests; the notification
cursor never passes the request cursor; every wrong value was a consumed
notification and every database misread a wrong value; no more latencies
were collected than notifications consumed. *)
Theorem classify_accounts (c : Cassie.t) (s : Scan) :
  classify c = Some s →
  reqPointer s = length (requests c) ∧
  length (str s) = length (requests c) ∧
  (correctReq s + incorrectReq s)%nat = length (requests c) ∧
  (notifPointer s ≤ length (requests c))%nat ∧
  (dbReadWrongValue s ≤ wrong s)%nat ∧
  (wrong s ≤ notifPointer s)%nat ∧
  (length (processingTime s) ≤ notifPointer s)%nat ∧
  ∀ i line,
    str s !! i = Some line →
    number line = i ∧ ∃ r, requests c !! i = Some r ∧ sent line = value r.
Proof.
  intros H. unfold classify in H.
  pose proof (while_accounted _ _ _ _ _ (accounted_scan0 c) H) as A.
  assert (Hex : (length (requests c) ≤ reqPointer s)%nat).
  { eapply while_exit; [|exact H]. simpl. lia. }
  destruct A as [A1 A2 A3 A4 A5 A6 A7 A8].
  assert (E : reqPointer s = length (requests c)) by lia.
  split; [lia|]. split; [lia|]. split; [lia|]. split; [lia|].
  split; [lia|]. split; [lia|]. split; [lia|]. exact A8.
Qed.

Lemma classify_accounts_witness :
  ∃ s, classify one_answered_request = Some s ∧
       length (str s) = length (requests one_answered_request).
Proof.
  eexists. split; [vm_compute; reflexivity|].
  refine (proj1 (proj2 (classify_accounts one_answered_request _ _))).
  vm_compute. reflexivity.
Defined.

(** X14.  The report is produced whenever there are at least as many
notifications as requests, and whenever no request carries a value that
is flagged lost: the loop can only raise at a request flagged lost that
finds no notification at the cursor. *)
Theorem report_produced (c : Cassie.t) :
  (length (requests c) ≤ length (notifications c))%nat ∨
  (∀ r, r ∈ requests c → value r ∉ lostUpdates (dbWrites c)) →
  is_Some (classify c) ∧ is_Some (report c).
Proof.
  intros Hyp.
  assert (B : ∀ s, accounted c s →
                   (reqPointer s < length (requests c))%nat →
                   is_Some (body c (lostUpdates (dbWrites c)) s)).
  { intros s A Hlt. unfold body.
    destruct (requests c !! reqPointer s) as [r|] eqn:Er;
      [|apply lookup_ge_None in Er; lia].
    destruct (notifications c !! notifPointer s) as [n|] eqn:En;
      [repeat case_match; done|].
    destruct Hyp as [Hlen|Hnl].
    - apply lookup_ge_None in En.
      pose proof (cursors_ordered c s A). lia.
    - rewrite bool_decide_eq_false_2; [done|].
      apply Hnl. eapply list_elem_of_lookup_2. exact Er. }
  assert (W : ∀ fuel s, accounted c s →
                is_Some (while fuel c (lostUpdates (dbWrites c)) s)).
  { induction fuel as [|fuel IH]; intros s A; simpl.
    - destruct (reqPointer s <? length (requests c))%nat; done.
    - destruct (Nat.ltb_spec (reqPointer s) (length (requests c)));
        [|done].
      destruct (B s A ltac:(done)) as [s1 E]. rewrite E. apply IH.
      eapply body_accounted; eauto. }
  assert (C : is_Some (classify c)) by (apply W, accounted_scan0).
  split; [exact C|]. unfold report. destruct C as [s ->]. done.
Qed.

Lemma report_produced_witness : is_Some (classify one_answered_request).
Proof.
  apply (report_produced one_answered_request). left. simpl. lia.
Defined.

(** X15.  A clean run reads clean: when every written value is
non-negative, every request's value was written, and the notifications
carry the values of the requests in the same order, every line of the
report is a plain one, no wrong value and no database misread is counted,
and every notification is consumed. *)
Theorem clean_run_reads_clean (c : Cassie.t) :
  (∀ v, v ∈ dbWrites c → 0 ≤ v) →
  (∀ r, r ∈ requests c → value r ∈ dbWrites c) →
  map value (notifications c) = map value (requests c) →
  ∃ s, classify c = Some s ∧
       wrong s = 0%nat ∧ dbReadWrongValue s = 0%nat ∧
       notifPointer s = length (notifications c) ∧
       length (str s) = length (requests c) ∧
       Forall (λ line, note line = plain) (str s).
Proof.
  intros Hpos Hwritten Hsame.
  assert (Hlen : length (notifications c) = length (requests c))
    by (rewrite <- (length_map value), Hsame, length_map; done).
  assert (Hnl : ∀ r, r ∈ requests c → value r ∉ lostUpdates (dbWrites c)).
  { intros r Hr Hin. apply (lostUpdates_sound _ Hpos) in Hin as [Hin _].
    apply Hin, Hwritten, Hr. }
  assert (Hval : ∀ i r n, requests c !! i = Some r →
                          notifications c !! i = Some n → value r = value n).
  { intros i r n Hr Hn.
    assert (E1 : map value (requests c) !! i = Some (value r))
      by (rewrite list_lookup_fmap, Hr; done).
    assert (E2 : map value (notifications c) !! i = Some (value n))
      by (rewrite list_lookup_fmap, Hn; done).
    rewrite Hsame in E2. congruence. }
  assert (W : ∀ fuel s,
             notifPointer s = reqPointer s → wrong s = 0%nat →
             dbReadWrongValue s = 0%nat →
             (reqPointer s ≤ length (requests c))%nat →
             Forall (λ line, note line = plain) (str s) →
             ∃ s', while fuel c (lostUpdates (dbWrites c)) s = Some s' ∧
                   notifPointer s' = reqPointer s' ∧ wrong s' = 0%nat ∧
                   dbReadWrongValue s' = 0%nat ∧
                   Forall (λ line, note line = plain) (str s')).
  { induction fuel as [|fuel IH]; intros s H1 H2 H3 H4 H5; simpl.
    - destruct (reqPointer s <? length (requests c))%nat; eauto 10.
    - destruct (Nat.ltb_spec (reqPointer s) (length (requests c)));
        [|eauto 10].
      destruct (lookup_lt_is_Some_2 (requests c) (reqPointer s) ltac:(done))
        as [r Er].
      destruct (lookup_lt_is_Some_2 (notifications c) (notifPointer s)
                  ltac:(lia)) as [n En].
      assert (Ev : value r = value n)
        by (apply (Hval (reqPointer s)); [done | rewrite <- H1; done]).
      unfold body at 1. rewrite Er, En.
      rewrite (bool_decide_eq_false_2 (value r ∈ _));
        [|apply Hnl; eapply list_elem_of_lookup_2; exact Er].
      rewrite (bool_decide_eq_false_2 (value r ≠ value n)) by tauto.
      apply IH; simpl; try lia.
      apply Forall_app. split; [done|]. apply Forall_singleton. done. }
  assert (H0 : (reqPointer scan0 ≤ length (requests c))%nat)
    by (simpl; lia).
  destruct (W (length (requests c)) scan0 eq_refl eq_refl eq_refl H0
              (Forall_nil_2 _)) as (s & Hs & E1 & E2 & E3 & E4).
  exists s. split; [exact Hs|].
  destruct (classify_exit c s Hs) as (A & Hr).
  pose proof (lines_so_far c s A).
  repeat split; try done; lia.
Qed.

Lemma clean_run_reads_clean_witness :
  ∃ s, classify one_answered_request = Some s ∧ wrong s = 0%nat.
Proof.
  destruct (clean_run_reads_clean one_answered_request)
    as (s & Hs & Hw & _).
  - intros v Hv. apply list_elem_of_singleton in Hv. subst v. lia.
  - intros r Hr. apply list_elem_of_singleton in Hr. subst r. simpl. left.
  - reflexivity.
  - exists s. split; done.
Defined.

Lemma sum_deltas (t : list Z) : ∀ a,
  foldr Z.add 0 (deltas (a :: t)) = default a (last (a :: t)) - a.
Proof.
  induction t as [|b t IH]; intros a; [simpl; lia|].
  change (deltas (a :: b :: t)) with ((b - a) :: deltas (b :: t)).
  change (last (a :: b :: t)) with (last (b :: t)).
  change (foldr Z.add 0 ((b - a) :: deltas (b :: t)))
    with ((b - a) + foldr Z.add 0 (deltas (b :: t))).
  rewrite IH.
  destruct (last (b :: t)) as [x|] eqn:E; simpl; [lia|].
  apply last_None in E. done.
Qed.

Lemma length_deltas (t : list Z) : length (deltas t) = (length t - 1)%nat.
Proof.
  induction t as [|a t IH]; [done|].
  destruct t as [|b t]; [done|].
  change (deltas (a :: b :: t)) with ((b - a) :: deltas (b :: t)).
  simpl length in *. rewrite IH. lia.
Qed.

Lemma avgOf_deltas (t : list Z) (f l : Z) :
  t !! 0%nat = Some f → last t = Some l → (2 ≤ length t)%nat →
  avgOf (deltas t) = rnd_div (l - f) (length t - 1).
Proof.
  intros Hf Hl Hn. unfold avgOf. rewrite length_deltas, reduce_add_sum.
  destruct (Nat.ltb_spec 0 (length t - 1)); [|lia].
  destruct t as [|a t]; [done|]. injection Hf as ->.
  rewrite sum_deltas, Hl. done.
Qed.

(** X12.  With two samples or more, each interval average only depends on
the first and the last time stamp and on the number of samples: it is
their difference divided by the number of gaps, rounded. *)
Theorem averages_telescope (c : Cassie.t) :
  (∀ f l, notifications c !! 0%nat = Some f → last (notifications c) = Some l →
          (2 ≤ length (notifications c))%nat →
          avgUpdate c =
          rnd_div (time l - time f) (length (notifications c) - 1)) ∧
  (∀ f l, intervals c !! 0%nat = Some f → last (intervals c) = Some l →
          (2 ≤ length (intervals c))%nat →
          avgWrite c =
          rnd_div (start l - start f) (length (intervals c) - 1)).
Proof.
  split; intros f l Hf Hl Hn.
  - unfold avgUpdate. rewrite timeBetween_from0_deltas.
    rewrite <- (length_map time). apply avgOf_deltas.
    + rewrite list_lookup_fmap, Hf. done.
    + rewrite fmap_last, Hl. done.
    + rewrite length_map. done.
  - unfold avgWrite. rewrite timeBetween_from1_deltas.
    rewrite <- (length_map start). apply avgOf_deltas.
    + rewrite list_lookup_fmap, Hf. done.
    + rewrite fmap_last, Hl. done.
    + rewrite length_map. done.
Qed.

Lemma averages_telescope_witness :
  avgWrite lost_request_last = rnd_div (111 - 101) (2 - 1).
Proof.
  apply (proj2 (averages_telescope lost_request_last)
               {| start := 101; finish := 104 |}
               {| start := 111; finish := 114 |});
    [reflexivity | reflexivity | simpl; lia].
Defined.

(** The classification only reads the requests, the notifications and
the database writes. *)
Lemma while_set_intervals l c lost fuel : ∀ s,
  while fuel (set_intervals l c) lost s = while fuel c lost s.
Proof.
  induction fuel as [|fuel IH]; intros s; [done|].
  simpl. change (body (set_intervals l c) lost s) with (body c lost s).
  destruct (reqPointer s <? length (requests c))%nat; [|done].
  destruct (body c lost s); [apply IH | done].
Qed.

Lemma sorted_sort_by {A} (key : A → Z) (l : list A) :
  StronglySorted (λ a b, key a ≤ key b) l → sort_by key l = l.
Proof.
  induction 1 as [|x l Hl IH Hx]; [done|].
  change (sort_by key (x :: l)) with (insert_by key x (sort_by key l)).
  rewrite IH. destruct l as [|y l]; [done|]. simpl.
  apply Forall_cons in Hx as [Hxy _].
  destruct (Z.leb_spec (key x) (key y)); [done | lia].
Qed.

Lemma foldl_sum {A} (g : A → Z) (l : list A) : ∀ a,
  foldl (λ acc x, acc + g x) a l = a + foldr Z.add 0 (map g l).
Proof.
  induction l as [|x l IH]; intros a; simpl; [lia|]. rewrite IH. lia.
Qed.

Lemma sum_perm (l l' : list Z) :
  l ≡ₚ l' → foldr Z.add 0 l = foldr Z.add 0 l'.
Proof. induction 1; simpl; lia. Qed.

Lemma cassAvg_perm l l' : l ≡ₚ l' → cassAvg l = cassAvg l'.
Proof.
  intros H. unfold cassAvg. rewrite !foldl_sum.
  rewrite (Permutation_length H).
  rewrite (sum_perm (map (λ iv, finish iv - start iv) l)
                    (map (λ iv, finish iv - start iv) l')); [done|].
  apply Permutation_map. exact H.
Qed.

Lemma deltas_sorted (t : list Z) :
  StronglySorted Z.le t → Forall (λ d, 0 ≤ d) (deltas t).
Proof.
  induction 1 as [|a t Ht IH Ha]; [constructor|].
  destruct t as [|b t]; [constructor|].
  change (deltas (a :: b :: t)) with ((b - a) :: deltas (b :: t)).
  constructor; [|exact IH]. apply Forall_cons in Ha as [Hab _]. lia.
Qed.

Lemma avgOf_nonneg (l : list Z) : Forall (λ d, 0 ≤ d) l → 0 ≤ avgOf l.
Proof.
  intros H.
  assert (Hs : 0 ≤ foldr Z.add 0 l).
  { induction H as [|d l Hd Hl IH]; [done|].
    change (foldr Z.add 0 (d :: l)) with (d + foldr Z.add 0 l). lia. }
  unfold avgOf, rnd_div. rewrite reduce_add_sum.
  destruct (Nat.ltb_spec 0 (length l)); [|done].
  apply Z.div_pos; lia.
Qed.

(** X17.  The report takes the average time between writes over the
interval list as it finds it, before it puts the list in order of
[start]; it leaves the list in that order, a rearrangement of what it was,
and nothing else changed.  A second report right after it gives the same
summary, except that the average time between writes is now taken over
the ordered list and cannot be negative; the second report changes
nothing. *)
Theorem report_again (c c' : Cassie.t) (sm : Summary) :
  report c = Some (sm, c') →
  s_avgWrite sm = avgWrite c ∧
  avgWrite c = avgOf (deltas (map start (intervals c))) ∧
  avgWrite c' = avgOf (deltas (map start (sort_by start (intervals c)))) ∧
  c' = set_intervals (sort_by start (intervals c)) c ∧
  intervals c' ≡ₚ intervals c ∧
  StronglySorted (λ a b, start a ≤ start b) (intervals c') ∧
  0 ≤ avgWrite c' ∧
  report c' =
    Some ({| s_correctReq := s_correctReq sm;
             s_incorrectReq := s_incorrectReq sm;
             s_count := s_count sm;
             s_wrong := s_wrong sm;
             s_dbReadWrongValue := s_dbReadWrongValue sm;
             s_avgWrite := avgWrite c';
             s_avgUpdate := s_avgUpdate sm;
             s_avgProcessingTime := s_avgProcessingTime sm;
             s_overlapping := s_overlapping sm;
             s_cassAvg := s_cassAvg sm;
             s_localDetectionErrors := s_localDetectionErrors sm;
             s_globalDetectionErrors := s_globalDetectionErrors sm;
             s_notPersistedErrors := s_notPersistedErrors sm;
             s_delayedRequests := s_delayedRequests sm;
             s_lines := s_lines sm |}, c').
Proof.
  intros H. unfold report in H.
  destruct (classify c) as [s|] eqn:Es; [|done].
  injection H as <- <-.
  set (l := sort_by start (intervals c)).
  assert (Hperm : l ≡ₚ intervals c) by apply sort_by_perm.
  assert (Hsorted : StronglySorted (λ a b, start a ≤ start b) l)
    by apply sort_by_sorted.
  split; [done|].
  split; [unfold avgWrite; rewrite timeBetween_from1_deltas; done|].
  split; [unfold avgWrite; rewrite timeBetween_from1_deltas; done|].
  split; [done|]. split; [exact Hperm|]. split; [exact Hsorted|]. split.
  - unfold avgWrite. rewrite timeBetween_from1_deltas.
    apply avgOf_nonneg, deltas_sorted. simpl. fold l.
    clear -Hsorted. induction Hsorted as [|a t Ht IH Ha]; [constructor|].
    simpl. constructor; [exact IH|].
    rewrite Forall_forall in Ha. apply Forall_forall. intros x Hx.
    apply list_elem_of_In, in_map_iff in Hx as (b & <- & Hb).
    apply Ha, list_elem_of_In. exact Hb.
  - unfold report.
    assert (Ec : classify (set_intervals l c) = Some s).
    { unfold classify. simpl. rewrite while_set_intervals. exact Es. }
    rewrite Ec. simpl. fold l.
    rewrite (sorted_sort_by start l Hsorted).
    assert (Eo : overlapping l = overlapping (intervals c)).
    { unfold overlapping. fold l. rewrite (sorted_sort_by start l Hsorted).
      done. }
    rewrite Eo, (cassAvg_perm _ _ Hperm). done.
Qed.

Lemma report_again_witness :
  ∃ sm c', report two_writes_out_of_order = Some (sm, c') ∧
           s_avgWrite sm = -10 ∧ avgWrite c' = 10 ∧
           intervals c' = [{| start := 0; finish := 30 |};
                           {| start := 10; finish := 12 |}].
Proof.
  destruct (report two_writes_out_of_order) as [[sm c']|] eqn:E;
    [|vm_compute in E; discriminate E].
  exists sm, c'. split; [done|].
  destruct (report_again two_writes_out_of_order c' sm E)
    as (H1 & H2 & H3 & H4 & _).
  split; [rewrite H1, H2; vm_compute; reflexivity|].
  split; [rewrite H3; vm_compute; reflexivity|].
  rewrite H4. vm_compute. reflexivity.
Defined.

Lemma filter_none {A} (P : A → Prop) `{∀ x, Decision (P x)} (l : list A) :
  filter P l = [] ↔ ∀ x, x ∈ l → ¬ P x.
Proof.
  induction l as [|x l IH].
  - split; [|done]. intros _ y Hy. apply elem_of_nil in Hy. done.
  - rewrite filter_cons. destruct (decide (P x)) as [Hx|Hx].
    + split; [done|]. intros Hall. exfalso. apply (Hall x); [left | done].
    + rewrite IH. split.
      * intros Hall y Hy. apply elem_of_cons in Hy as [->|Hy]; eauto.
      * intros Hall y Hy. apply Hall. right. done.
Qed.

(** X18.  The overlap count is less than the number of intervals (the
earliest started one is never counted), and it is zero exactly when, in
order of start, no interval finishes before one that started earlier. *)
Theorem overlapping_bounds (ivs : list Interval) :
  (overlapping ivs ≤ length ivs - 1)%nat ∧
  (overlapping ivs = 0%nat ↔ ∀ i, ¬ outlasted (sort_by start ivs) i).
Proof.
  set (s := sort_by start ivs).
  assert (E : overlapping ivs =
              length (filter (λ i, scan_before s i = true)
                             (seq 0 (length s))))
    by (unfold overlapping; fold s;
        exact (count_foldl (scan_before s) (seq 0 (length s)) 0)).
  assert (Hlen : length s = length ivs)
    by (apply Permutation_length, sort_by_perm).
  split.
  - rewrite E, Hlen. destruct (length ivs) as [|n]; [done|].
    simpl seq. rewrite filter_cons.
    change (scan_before s 0) with false.
    destruct (decide (false = true)); [done|].
    pose proof (length_filter (λ i, scan_before s i = true) (seq 1 n)) as L.
    rewrite length_seq in L. lia.
  - rewrite E. split.
    + intros H0 i Hi. apply nil_length_inv in H0.
      pose proof (proj1 (filter_none _ _) H0 i) as Hn.
      apply Hn; [|apply scan_before_outlasted; exact Hi].
      destruct Hi as (a & _ & _ & Ha & _). apply elem_of_seq.
      apply lookup_lt_Some in Ha. lia.
    + intros Hall. rewrite (proj2 (filter_none _ _)); [done|].
      intros i _ Hi. apply (Hall i), scan_before_outlasted, Hi.
Qed.

End Accounting.

(** ** What a socket forwards and what it leaves behind *)

Section Forwarding.
Import Hub Fanout.

Lemma run_cons_hub e evs s : run (e :: evs) s = run evs (handle e s).
Proof. reflexivity. Qed.

Lemma cleanup_keeps s :
  thingId (cleanup s).1 = thingId s ∧
  subscribedEventNames (cleanup s).1 = subscribedEventNames s.
Proof. unfold cleanup. destruct (run_cleanups _ _). done. Qed.

Lemma run_allow_list evs : ∀ s,
  thingId (run evs s) = thingId s ∧
  subscribedEventNames (run evs s) = subscribedEventNames s ∪ subscribed evs.
Proof.
  induction evs as [|e evs IH]; intros s.
  - simpl. split; [done|]. rewrite (right_id_L ∅ (∪)). done.
  - rewrite run_cons_hub. destruct (IH (handle e s)) as [-> ->].
    destruct e as [id|id|names|]; simpl.
    + done.
    + unfold removed. destruct (thingCleanups s !! id); done.
    + split; [done|]. rewrite (assoc_L (∪)). done.
    + destruct (cleanup_keeps s) as [-> ->]. done.
Qed.

(** X19.  On a socket that went through any events since it was opened,
an event of a thing is forwarded exactly when the thing is in the scope
the socket was opened with and the event's name was named by some
subscription message, or is a name every object inherits; a teardown in
between does not take a name back. *)
Theorem events_forwarded_when_subscribed
    (t : option string) (evs : list Hub.event) (id name : string) :
  onEvent_sends (run evs (open t)) id name = true ↔
  (match t with Some t' => id = t' | None => True end) ∧
  (inherited name = true ∨
   ∃ names, message names ∈ evs ∧ name ∈ names).
Proof.
  assert (S : ∀ evs, name ∈ subscribed evs ↔
                     ∃ names, message names ∈ evs ∧ name ∈ names).
  { clear. induction evs as [|e evs IH].
    - simpl. split; [intros H; apply elem_of_empty in H; done|].
      intros (names & H & _).
      apply elem_of_nil in H. done.
    - assert (K : (∃ names, message names ∈ e :: evs ∧ name ∈ names) ↔
                  (∃ names, e = message names ∧ name ∈ names) ∨
                  (∃ names, message names ∈ evs ∧ name ∈ names)).
      { split.
        - intros (names & H & Hn). apply elem_of_cons in H as [H|H]; eauto.
        - intros [(names & -> & Hn)|(names & H & Hn)];
            exists names; (split; [|done]); [left | right; done]. }
      rewrite K, <- IH. clear K IH.
      destruct e as [i|i|names|]; simpl;
        try (split; [intros H; right; exact H |
                     intros [(names' & E & _)|H]; [discriminate E | exact H]]).
      rewrite elem_of_union, elem_of_list_to_set. split.
      + intros [H|H]; [left; eauto | right; done].
      + intros [(names' & [= <-] & H)|H]; [left | right]; done. }
  unfold onEvent_sends, in_scope.
  destruct (run_allow_list evs (open t)) as [-> ->]. simpl.
  rewrite andb_true_iff, orb_true_iff, bool_decide_eq_true.
  rewrite <- S.
  assert (Sc : (match t with
                | Some t0 => bool_decide (id = t0)
                | None => true
                end = true) ↔
               match t with Some t' => id = t' | None => True end).
  { destruct t; [apply bool_decide_eq_true | done]. }
  rewrite Sc. rewrite elem_of_union.
  assert (E0 : name ∉ (∅ : gset string)) by apply not_elem_of_empty.
  tauto.
Qed.

Lemma removeListener_single f : removeListener f [f] = [].
Proof. unfold removeListener. simpl. destruct (decide (f = f)); done. Qed.

Lemma thingCleanup_singles id k ts :
  ts !! id = Some (singles k) →
  (thingCleanup id k ts).1 = <[id := no_subscriptions]> ts.
Proof.
  intros E. unfold thingCleanup. rewrite E. simpl.
  rewrite !removeListener_single. done.
Qed.

Lemma run_cleanups_tidy l : ∀ ts,
  NoDup l.*1 →
  (∀ id k, (id, k) ∈ l → ts !! id = Some (singles k)) →
  (∀ id, id ∈ l.*1 → (run_cleanups l ts).1 !! id = Some no_subscriptions) ∧
  (∀ id, id ∉ l.*1 → (run_cleanups l ts).1 !! id = ts !! id).
Proof.
  induction l as [|[id k] l IH]; intros ts Hnd Hl.
  - simpl. split; [|done]. intros id H. apply elem_of_nil in H. done.
  - rewrite fmap_cons in Hnd |- *. cbn [fst] in Hnd |- *.
    apply NoDup_cons in Hnd as [Hid Hnd]. cbn [run_cleanups].
    pose proof (thingCleanup_singles id k ts (Hl id k ltac:(left))) as E.
    destruct (thingCleanup id k ts) as [ts1 log1]. cbn [fst] in E. subst ts1.
    destruct (IH (<[id := no_subscriptions]> ts) Hnd) as [I1 I2].
    { intros id' k' Hin. rewrite lookup_insert_ne.
      - apply Hl. right. done.
      - intros <-. apply Hid. apply list_elem_of_fmap.
        exists (id, k'). done. }
    destruct (run_cleanups l (<[id := no_subscriptions]> ts))
      as [ts2 log2]. cbn [fst] in *.
    split.
    + intros id' Hin. apply elem_of_cons in Hin as [->|Hin].
      * rewrite (I2 id Hid). apply lookup_insert_eq.
      * apply I1. done.
    + intros id' Hin. rewrite (I2 id').
      * apply lookup_insert_ne. intros <-. apply Hin. left.
      * intros H. apply Hin. right. done.
Qed.

Lemma cleanup_tidy s :
  tidy s → ∀ id, the_thing id (cleanup s).1 = no_subscriptions.
Proof.
  intros T id.
  destruct (run_cleanups_tidy (map_to_list (thingCleanups s)) (things s)
              (NoDup_fst_map_to_list _)) as [I1 I2].
  { intros id' k Hin. apply elem_of_map_to_list in Hin.
    specialize (T id'). rewrite Hin in T. done. }
  unfold cleanup, the_thing.
  destruct (run_cleanups _ _) as [ts log]. cbn [fst] in *. simpl.
  destruct (thingCleanups s !! id) as [k|] eqn:E.
  - rewrite (I1 id); [done|]. apply list_elem_of_fmap. exists (id, k).
    split; [done|]. apply elem_of_map_to_list. done.
  - rewrite (I2 id).
    + specialize (T id). rewrite E in T. done.
    + intros Hin. apply list_elem_of_fmap in Hin as ([id' k] & -> & Hin).
      apply elem_of_map_to_list in Hin. simpl in E. congruence.
Qed.

Lemma tidy_handle e s :
  tidy s →
  match e with thing id => thingCleanups s !! id = None | _ => True end →
  tidy (handle e s).
Proof.
  intros T He. destruct e as [id|id|names|]; simpl.
  - intros id'. unfold tidy in T. simpl.
    destruct (decide (id = id')) as [<-|Hne].
    + rewrite !lookup_insert_eq. specialize (T id). rewrite He in T.
      rewrite T. done.
    + rewrite lookup_insert_ne by done. specialize (T id').
      destruct (thingCleanups s !! id'); unfold the_thing in *; simpl;
        rewrite lookup_insert_ne by done; done.
  - unfold removed. destruct (thingCleanups s !! id) as [k|] eqn:E; [|done].
    pose proof (T id) as Tid. rewrite E in Tid.
    intros id'. unfold the_thing. cbn [thingCleanups things].
    rewrite (thingCleanup_singles _ _ _ Tid).
    destruct (decide (id = id')) as [<-|Hne].
    + rewrite lookup_delete_eq, lookup_insert_eq. done.
    + rewrite lookup_delete_ne by done. specialize (T id').
      destruct (thingCleanups s !! id'); unfold the_thing in *;
        rewrite lookup_insert_ne by done; done.
  - exact T.
  - intros id. pose proof (cleanup_tidy s T id) as C.
    assert (E : thingCleanups (cleanup s).1 = ∅)
      by (unfold cleanup; destruct (run_cleanups _ _); done).
    rewrite E, lookup_empty. exact C.
Qed.

Lemma tidy_run evs : ∀ s, tidy s → added_once evs s → tidy (run evs s).
Proof.
  induction evs as [|e evs IH]; intros s T A; [exact T|].
  destruct A as [He A]. rewrite run_cons_hub. apply IH; [|exact A].
  apply tidy_handle; done.
Qed.

(** X7.  On a socket where no thing was added again while a cleanup for
it was still stored, the teardown leaves none of the socket's callbacks
behind: no thing keeps a subscription of this socket, no global listener
of it stays registered, and the heartbeat is cleared. *)
Theorem teardown_leaves_nothing (t : option string) (evs : list Hub.event) :
  added_once evs (open t) →
  let s := (cleanup (run evs (open t))).1 in
  (∀ id, the_thing id s = no_subscriptions) ∧
  thing_added s = [] ∧ property_changed s = [] ∧ action_status s = [] ∧
  heartbeat s = false.
Proof.
  intros A s.
  assert (T : tidy (run evs (open t))).
  { apply tidy_run; [|exact A]. intros id. simpl.
    unfold the_thing. simpl. rewrite !lookup_empty. done. }
  split; [apply cleanup_tidy, T|].
  assert (G : globals_once (run evs (open t)))
    by (apply globals_once_run, globals_once_open).
  destruct (cleanup_globals _ G) as (E1 & E2 & E3).
  split; [exact E1|]. split; [exact E2|]. split; [exact E3|].
  unfold s, cleanup. destruct (run_cleanups _ _). done.
Qed.

Lemma teardown_leaves_nothing_witness :
  the_thing "lamp"
    (cleanup (run [thing "lamp"; thing_gone "lamp"; thing "lamp"]
                  (open None))).1 = no_subscriptions.
Proof.
  refine (proj1 (teardown_leaves_nothing None
            [thing "lamp"; thing_gone "lamp"; thing "lamp"] _) "lamp"%string).
  simpl. repeat split; reflexivity.
Defined.

End Forwarding.

(** ** The two orders of signal and acknowledgment *)

Section Orders.
Import Cassie.

Lemma indexOf_snoc (x : string) (l : list string) :
  x ∉ l → indexOf x (l ++ [x]) = Some (length l).
Proof.
  induction l as [|y l IH]; intros H; simpl.
  - destruct (decide (x = x)); done.
  - destruct (decide (y = x)) as [->|Hne]; [exfalso; apply H; left|].
    rewrite IH; [done|]. intros Hin. apply H. right. done.
Qed.

Lemma splice1_snoc (x : string) (l : list string) :
  splice1 (length l) (l ++ [x]) = l.
Proof.
  unfold splice1. rewrite take_app_length.
  rewrite drop_ge; [apply app_nil_r|]. rewrite length_app. simpl. lia.
Qed.

(** X11.  For a token with no marker and no pending correlation, it makes
no difference which of the two arrives first: the signal and then the
delayed acknowledgment, or the acknowledgment and then the signal, fulfill
the same caller once and end in the same state, the interval finishing
at the time of whichever came second. *)
Theorem signal_and_acknowledgment_commute
    (c : Cassie.t) (w : Waiter) (msg : string)
    (more : list string) (rs : list (gmap string Z)) (t0 now : Z) :
  slice_after_space msg ∉ finished c →
  pending c !! slice_after_space msg = None →
  let ts := slice_after_space msg in
  let a := Trace.ack w (delayed ts more rs) in
  let f := Trace.finishedProcessing msg in
  Trace.run [f t0; a now] c = Trace.run [a t0; f now] c ∧
  Trace.run [a t0; f now] c =
    ({| count := count c; requests := requests c;
        notifications := notifications c;
        intervals := intervals c ++ [{| start := opened w; finish := now |}];
        pending := pending c; finished := finished c;
        localDetectionErrors := localDetectionErrors c;
        globalDetectionErrors := globalDetectionErrors c;
        notPersistedErrors := notPersistedErrors c;
        delayedRequests := S (delayedRequests c);
        dbWrites := dbWrites c |}, [caller w]).
Proof.
  intros Hf Hp ts a f.
  assert (A : Trace.run [f t0; a now] c =
    ({| count := count c; requests := requests c;
        notifications := notifications c;
        intervals := intervals c ++ [{| start := opened w; finish := now |}];
        pending := pending c; finished := finished c;
        localDetectionErrors := localDetectionErrors c;
        globalDetectionErrors := globalDetectionErrors c;
        notPersistedErrors := notPersistedErrors c;
        delayedRequests := S (delayedRequests c);
        dbWrites := dbWrites c |}, [caller w])).
  { unfold f, a. simpl. unfold finishedProcessing. rewrite Hp.
    unfold write_then. simpl.
    destruct (decide (Some "DELAY"%string = Some "DELAY"%string)); [|done].
    simpl. fold ts. rewrite (indexOf_snoc ts (finished c) Hf).
    simpl. rewrite splice1_snoc. done. }
  assert (B : Trace.run [a t0; f now] c =
    ({| count := count c; requests := requests c;
        notifications := notifications c;
        intervals := intervals c ++ [{| start := opened w; finish := now |}];
        pending := pending c; finished := finished c;
        localDetectionErrors := localDetectionErrors c;
        globalDetectionErrors := globalDetectionErrors c;
        notPersistedErrors := notPersistedErrors c;
        delayedRequests := S (delayedRequests c);
        dbWrites := dbWrites c |}, [caller w])).
  { unfold f, a. simpl. unfold write_then. simpl.
    destruct (decide (Some "DELAY"%string = Some "DELAY"%string)); [|done].
    simpl. apply indexOf_None in Hf. fold ts in Hf |- *. rewrite Hf. simpl.
    unfold finishedProcessing. simpl. fold ts.
    rewrite lookup_insert_eq. simpl.
    rewrite delete_insert_eq, delete_id by exact Hp. done. }
  split; [rewrite A, B; done | exact B].
Qed.

Lemma signal_and_acknowledgment_commute_witness :
  Trace.run [Trace.finishedProcessing "finished 7" 3;
             Trace.ack {| caller := 1; opened := 2 |} (delayed "7" [] []) 9]
            init =
  Trace.run [Trace.ack {| caller := 1; opened := 2 |} (delayed "7" [] []) 3;
             Trace.finishedProcessing "finished 7" 9]
            init.
Proof.
  refine (proj1 (signal_and_acknowledgment_commute init
            {| caller := 1; opened := 2 |} "finished 7" [] [] 3 9 _ _)).
  - simpl. apply not_elem_of_nil.
  - simpl. apply lookup_empty.
Defined.

End Orders.
